(** * subarray-ring-buffer: a shallow embedding of [RingBuffer]

    The development follows the JavaScript class [RingBuffer] (index.js):
    a fixed-size [Buffer], a write offset, the two mode flags [strict] and
    [safe], and the byte counter [totalOffset] of safe mode.  [write] hands
    back a view of the bytes just written: a plain [Buffer] (a subarray of
    the ring's memory), a [BufferList] of two subarrays when the write wraps
    around, or, in safe mode, a [Proxy] around a [BufferList] whose [get]
    trap checks the live counter before every property access.

    Views never own bytes; they are windows on the ring's memory.  Reading
    a view is therefore a function of the *current* state of the ring. *)

From Stdlib Require Import ZArith Lia.
From Stdlib Require Import Strings.Byte Strings.Ascii Strings.String.
From stdpp Require Import base decidable numbers option list.

Local Open Scope Z_scope.

(** ** Errors and results *)

Inductive error : Set :=
| ChunkTooLarge      (* Error('chunk length exceeds size of ring buffer') *)
| StaleViewAccess    (* Error('buffer is no longer safe to access') *)
| ERR_OUT_OF_RANGE   (* RangeError of node:buffer argument validation *)
| ERR_MEMORY_ALLOCATION_FAILED.
                     (* RangeError: the platform cannot provide the memory *)

Inductive result (A : Type) : Type :=
| Ok (a : A)
| Throw (e : error).
Arguments Ok {A} a.
Arguments Throw {A} e.

#[global] Instance error_eq_dec : EqDecision error.
Proof. solve_decision. Defined.

(** ** node:buffer

    Memory is a list of bytes.  A [Buffer] object is a window
    (byte offset, length) on some memory; [subarray] makes a new window on
    the same memory and copies nothing. *)

Definition blen (mem : list byte) : Z := Z.of_nat (length mem).

Record Buffer : Set := mkBuffer { byteOffset : Z; byteLength : Z }.

#[global] Instance Buffer_eq_dec : EqDecision Buffer.
Proof. solve_decision. Defined.

(** [buf.subarray(start, end)] (TypedArray.prototype.subarray): negative
    indices count from the end, both indices are clamped to the length and
    an inverted range is empty. *)
Definition clamp_index (len i : Z) : Z :=
  if decide (i < 0) then Z.max (len + i) 0 else Z.min i len.

Definition subarray (b : Buffer) (start end_ : option Z) : Buffer :=
  let len := byteLength b in
  let beginIndex := clamp_index len (default 0 start) in
  let endIndex := clamp_index len (default len end_) in
  {| byteOffset := byteOffset b + beginIndex;
     byteLength := Z.max (endIndex - beginIndex) 0 |}.

(** The bytes a [Buffer] window shows on memory [mem] right now. *)
Definition Buffer_bytes (mem : list byte) (b : Buffer) : list byte :=
  take (Z.to_nat (byteLength b)) (drop (Z.to_nat (byteOffset b)) mem).

(** [source.copy(target, targetStart, sourceStart, sourceEnd)], after
    lib/buffer.js ([copyImpl] and [_copyActual]).  [source] is the chunk,
    [target] the memory of a buffer that spans all of it; the result is the
    new content of [target] (the number of bytes copied, which the ring
    buffer ignores, is not returned).  The chunk is a byte sequence of its
    own: it does not share memory with the target. *)
Definition Buffer_copy (source target : list byte)
    (targetStart sourceStart sourceEnd : option Z) : result (list byte) :=
  let targetStart := default 0 targetStart in
  if decide (targetStart < 0) then Throw ERR_OUT_OF_RANGE else
  let sourceStart := default 0 sourceStart in
  if decide (sourceStart < 0 ∨ blen source < sourceStart) then Throw ERR_OUT_OF_RANGE else
  let sourceEnd := default (blen source) sourceEnd in
  if decide (sourceEnd < 0) then Throw ERR_OUT_OF_RANGE else
  if decide (blen target <= targetStart ∨ sourceEnd <= sourceStart) then Ok target else
  let sourceEnd :=
    if decide (blen target - targetStart < sourceEnd - sourceStart)
    then sourceStart + blen target - targetStart else sourceEnd in
  let nb := sourceEnd - sourceStart in
  let sourceLen := blen source - sourceStart in
  let nb := if decide (sourceLen < nb) then sourceLen else nb in
  if decide (nb <= 0) then Ok target else
  Ok (list_inserts (Z.to_nat targetStart)
        (take (Z.to_nat nb) (drop (Z.to_nat sourceStart) source)) target).

(** ** bl: BufferList

    [new BufferList([b1; ...; bk])] keeps the buffers it is given (windows
    on their memory, no copy) and stores the sum of their lengths. *)

Record BufferList : Set := mkBufferList { _bufs : list Buffer; BL_length : Z }.

Definition new_BufferList (bufs : list Buffer) : BufferList :=
  {| _bufs := bufs; BL_length := foldr (λ b acc, byteLength b + acc) 0 bufs |}.

(** [const emptyBufferList = new BufferList([Buffer.allocUnsafe(0)])]: one
    buffer of length 0 (on memory of its own; a window of length 0 shows no
    byte of any memory). *)
Definition emptyBufferList : BufferList :=
  new_BufferList [ {| byteOffset := 0; byteLength := 0 |} ].

(** [bl.slice()]: the buffers' bytes, in order, as one flat sequence. *)
Definition BufferList_slice (mem : list byte) (l : BufferList) : list byte :=
  concat (Buffer_bytes mem <$> _bufs l).

(** ** The ring buffer *)

Record RingBuffer : Set := mkRingBuffer {
  buffer : list byte;   (* memory of #buffer, a Buffer that spans all of it *)
  offset : Z;           (* #offset *)
  strict : bool;        (* #strict *)
  safe : bool;          (* #safe *)
  totalOffset : Z       (* #totalOffset, only used in safe mode *)
}.

Definition set_buffer (mem : list byte) (rb : RingBuffer) : RingBuffer :=
  {| buffer := mem; offset := offset rb; strict := strict rb;
     safe := safe rb; totalOffset := totalOffset rb |}.

Definition set_offset (o : Z) (rb : RingBuffer) : RingBuffer :=
  {| buffer := buffer rb; offset := o; strict := strict rb;
     safe := safe rb; totalOffset := totalOffset rb |}.

Definition set_totalOffset (t : Z) (rb : RingBuffer) : RingBuffer :=
  {| buffer := buffer rb; offset := offset rb; strict := strict rb;
     safe := safe rb; totalOffset := t |}.

(** [this.#buffer.length] and [this.#buffer] as a Buffer object. *)
Definition capacity (rb : RingBuffer) : Z := blen (buffer rb).

Definition this_buffer (rb : RingBuffer) : Buffer :=
  {| byteOffset := 0; byteLength := capacity rb |}.

(** *** Construction

    [Buffer.allocUnsafe(size)] is Node's, not this repository's; the
    constructor is modelled against what Node documents of it.  It rejects
    a size below 0 or above the platform constant
    [buffer.constants.MAX_LENGTH] with a range error.  Within that range
    the platform may still be unable to provide the memory, and then it
    throws as well; otherwise it returns [size] bytes of uninitialised
    memory.  [garbage size] is what the platform answers to a request that
    is in range: [None] when it has no memory to give, or the content the
    fresh memory happens to hold. *)
Section Construction.
Variable kMaxLength : Z.
Variable garbage : Z → option (nat → byte).

Definition allocUnsafe (size : Z) : result (list byte) :=
  if decide (size < 0 ∨ kMaxLength < size) then Throw ERR_OUT_OF_RANGE
  else match garbage size with
       | None => Throw ERR_MEMORY_ALLOCATION_FAILED
       | Some content => Ok (content <$> seq 0 (Z.to_nat size))
       end.

(** [constructor(size, strict = false, safe = false)] *)
Definition new_RingBuffer (size : Z) (strict safe : bool) : result RingBuffer :=
  match allocUnsafe size with
  | Throw e => Throw e
  | Ok mem =>
      Ok {| buffer := mem; offset := 0; strict := strict; safe := safe;
            totalOffset := 0 |}
  end.
End Construction.

(** *** Methods run in a state-and-exception monad over the object *)

Definition M (A : Type) : Type := RingBuffer → RingBuffer * result A.

#[global] Instance M_ret : MRet M := λ A a rb, (rb, Ok a).
#[global] Instance M_bind : MBind M := λ A B f m rb,
  match m rb with
  | (rb', Ok a) => f a rb'
  | (rb', Throw e) => (rb', Throw e)
  end.

Definition throw {A} (e : error) : M A := λ rb, (rb, Throw e).
Definition gets {A} (f : RingBuffer → A) : M A := λ rb, (rb, Ok (f rb)).
Definition modify (f : RingBuffer → RingBuffer) : M unit := λ rb, (f rb, Ok tt).

(** [chunk.copy(this.#buffer, targetStart, sourceStart, sourceEnd)] *)
Definition copy_to_buffer (chunk : list byte)
    (targetStart sourceStart sourceEnd : option Z) : M unit := λ rb,
  match Buffer_copy chunk (buffer rb) targetStart sourceStart sourceEnd with
  | Ok mem => (set_buffer mem rb, Ok tt)
  | Throw e => (rb, Throw e)
  end.

(** What [#write] returns: a Buffer or a BufferList. *)
Inductive Raw : Set :=
| IsBuffer (b : Buffer)
| IsBufferList (l : BufferList).

(** What [write] returns: the result of [#write] as it is, or a Proxy
    around a BufferList whose [get] trap closes over [safeOffset] (and over
    [this], the live ring buffer). *)
Inductive View : Set :=
| Unproxied (r : Raw)
| Proxied (target : BufferList) (safeOffset : Z).

(** [#write(chunk)] *)
Definition write_private (chunk : list byte) : M Raw :=
  cap ← gets capacity;
  let n := blen chunk in
  if decide (n > cap) then
    s ← gets strict;
    if (s : bool) then throw ChunkTooLarge else
    copy_to_buffer chunk (Some 0) (Some (n - cap)) None;;
    b ← gets this_buffer;
    mret (IsBuffer b)
  else
    off ← gets offset;
    if decide (off + n > cap) then
      let remaining := cap - off in
      copy_to_buffer chunk (Some off) (Some 0) (Some remaining);;
      copy_to_buffer chunk (Some 0) (Some remaining) None;;
      b ← gets this_buffer;
      let first := subarray b (Some off) None in
      modify (set_offset (n - remaining));;
      let second := subarray b (Some 0) (Some (n - remaining)) in
      mret (IsBufferList (new_BufferList [first; second]))
    else
      copy_to_buffer chunk (Some off) None None;;
      b ← gets this_buffer;
      modify (set_offset (off + n));;
      mret (IsBuffer (subarray b (Some off) (Some (off + n)))).

(** [write(chunk)].  The two sums on the counter are taken in [Z]; they
    are the program's as long as they stay within [MAX_SAFE_INTEGER] (see
    the section on JavaScript numbers below). *)
Definition write (chunk : list byte) : M View :=
  sf ← gets safe;
  if negb sf then
    r ← write_private chunk;
    mret (Unproxied r)
  else
    safeOffset ← gets (λ rb, totalOffset rb + capacity rb);
    r ← write_private chunk;
    modify (λ rb, set_totalOffset (totalOffset rb + blen chunk) rb);;
    let target :=
      match r with
      | IsBufferList l => l
      | IsBuffer b => new_BufferList [b]
      end in
    mret (Proxied target safeOffset).

(** A run of writes on one ring buffer; a write that throws leaves the
    object as the throw found it and the caller goes on. *)
Definition writes (rb : RingBuffer) (chunks : list (list byte)) : RingBuffer :=
  foldl (λ rb chunk, fst (write chunk rb)) rb chunks.

(** ** Reading a view *)

(** The [get] trap of the Proxy: which object the property is read from. *)
Definition proxy_get (rb : RingBuffer) (target : BufferList) (safeOffset : Z)
    : result BufferList :=
  if decide (totalOffset rb > safeOffset) then
    if strict rb then Throw StaleViewAccess else Ok emptyBufferList
  else Ok target.

Definition Raw_length (r : Raw) : Z :=
  match r with
  | IsBuffer b => byteLength b
  | IsBufferList l => BL_length l
  end.

Definition Raw_bytes (mem : list byte) (r : Raw) : list byte :=
  match r with
  | IsBuffer b => Buffer_bytes mem b
  | IsBufferList l => BufferList_slice mem l
  end.

(** The object a read of the view lands on, after the trap if there is one. *)
Definition View_target (rb : RingBuffer) (v : View) : result Raw :=
  match v with
  | Unproxied r => Ok r
  | Proxied target safeOffset =>
      match proxy_get rb target safeOffset with
      | Ok l => Ok (IsBufferList l)
      | Throw e => Throw e
      end
  end.

Definition result_map {A B} (f : A → B) (r : result A) : result B :=
  match r with
  | Ok a => Ok (f a)
  | Throw e => Throw e
  end.

(** [view.length] *)
Definition View_length (rb : RingBuffer) (v : View) : result Z :=
  result_map Raw_length (View_target rb v).

(** [view.slice()]: the bytes of the view as one flat sequence. *)
Definition View_slice (rb : RingBuffer) (v : View) : result (list byte) :=
  result_map (Raw_bytes (buffer rb)) (View_target rb v).

(** [buf[j]] on a Buffer: the byte at index [j], [None] (undefined)
    outside it. *)
Definition Buffer_at (mem : list byte) (b : Buffer) (j : Z) : option byte :=
  if decide (0 <= j < byteLength b) then mem !! Z.to_nat (byteOffset b + j)
  else None.

(** [bl._offset(offset)]: the number of the buffer that holds logical index
    [offset] and the index within it.  Index 0 is answered with [0, 0]
    without a look at the buffers; otherwise the buffers are walked, and
    the last one takes whatever is left. *)
Fixpoint BufferList_offset_loop (bufs : list Buffer) (i : nat) (tot offset : Z)
    : option (nat * Z) :=
  match bufs with
  | [] => None
  | b :: rest =>
      let _t := tot + byteLength b in
      if decide (offset < _t) then Some (i, offset - tot)
      else match rest with
           | [] => Some (i, offset - tot)
           | _ :: _ => BufferList_offset_loop rest (S i) _t offset
           end
  end.

Definition BufferList_offset (l : BufferList) (offset : Z) : option (nat * Z) :=
  if decide (offset = 0) then Some (0%nat, 0)
  else BufferList_offset_loop (_bufs l) 0 0 offset.

(** [bl.get(index)]: undefined beyond the length or below 0, else
    [this._bufs[i][j]] for the [i, j] that [_offset] answers (the lists
    that [write] builds are never without a buffer). *)
Definition BufferList_get (mem : list byte) (l : BufferList) (index : Z)
    : option byte :=
  if decide (index > BL_length l ∨ index < 0) then None
  else match BufferList_offset l index with
       | Some (i, j) =>
           match _bufs l !! i with
           | Some b => Buffer_at mem b j
           | None => None
           end
       | None => None
       end.

Definition Raw_byte (mem : list byte) (r : Raw) (i : Z) : option byte :=
  match r with
  | IsBuffer b => Buffer_at mem b i
  | IsBufferList l => BufferList_get mem l i
  end.

(** [view[i]] on a Buffer, [view.get(i)] on a BufferList (also behind the
    Proxy): the byte the object answers for index [i], [None] for
    undefined. *)
Definition View_byte (rb : RingBuffer) (v : View) (i : Z) : result (option byte) :=
  result_map (λ r, Raw_byte (buffer rb) r i) (View_target rb v).

(** [view.toString('hex')] *)
Definition hex_digit (n : N) : ascii :=
  nth (N.to_nat n) (list_ascii_of_string "0123456789abcdef") "0"%char.

Definition hex_of_byte (b : byte) : string :=
  let n := Byte.to_N b in
  String (hex_digit (N.div n 16)) (String (hex_digit (N.modulo n 16)) EmptyString).

Definition hex_of_bytes (bs : list byte) : string :=
  foldr (λ b s, hex_of_byte b ++ s)%string EmptyString bs.

Definition View_toString_hex (rb : RingBuffer) (v : View) : result string :=
  result_map hex_of_bytes (View_slice rb v).

(** ** Type checks on a view

    [Buffer.isBuffer(v)] and [v instanceof BufferList] look at the
    prototype chain only.  A Proxy without a [getPrototypeOf] trap answers
    with its target's prototype, so neither check runs the [get] trap; both
    are functions of the view alone. *)
Definition isBuffer (v : View) : bool :=
  match v with
  | Unproxied (IsBuffer _) => true
  | _ => false
  end.

Definition instanceof_BufferList (v : View) : bool :=
  match v with
  | Unproxied (IsBuffer _) => false
  | Unproxied (IsBufferList _) => true
  | Proxied _ _ => true
  end.

(** The buffers behind a view, whatever wraps them. *)
Definition View_segments (v : View) : list Buffer :=
  match v with
  | Unproxied (IsBuffer b) => [b]
  | Unproxied (IsBufferList l) => _bufs l
  | Proxied target _ => _bufs target
  end.

(** ** JavaScript numbers

    The offset, the counter and [safeOffset] are JavaScript numbers.  On
    integers their sums are exact as long as the result does not exceed
    [Number.MAX_SAFE_INTEGER]; the embedding computes in [Z], and the
    statements about the counter carry that bound. *)
Definition MAX_SAFE_INTEGER : Z := 2 ^ 53 - 1.

(** ** Reachable states *)

Definition wf (rb : RingBuffer) : Prop := 0 <= offset rb <= capacity rb.

(** ** Auxiliary definitions for the proofs *)

(** The view [write] makes of what [#write] returned. *)
Definition as_view (sf : bool) (safeOffset : Z) (r : Raw) : View :=
  if sf then
    Proxied match r with
            | IsBufferList l => l
            | IsBuffer b => new_BufferList [b]
            end safeOffset
  else Unproxied r.

(** The counter after a write that did not throw. *)
Definition count (sf : bool) (n : Z) (rb : RingBuffer) : RingBuffer :=
  if sf then set_totalOffset (totalOffset rb + n) rb else rb.

(** The four ways a [write] on a reachable state can go. *)
Inductive write_case (chunk : list byte) (rb : RingBuffer) : Prop :=
| case_reject :
    blen chunk > capacity rb → strict rb = true →
    write chunk rb = (rb, Throw ChunkTooLarge) →
    write_case chunk rb
| case_truncate :
    blen chunk > capacity rb → strict rb = false →
    write chunk rb =
      (count (safe rb) (blen chunk)
         (set_buffer (drop (Z.to_nat (blen chunk - capacity rb)) chunk) rb),
       Ok (as_view (safe rb) (totalOffset rb + capacity rb)
             (IsBuffer (this_buffer rb)))) →
    write_case chunk rb
| case_fit :
    blen chunk <= capacity rb → offset rb + blen chunk <= capacity rb →
    write chunk rb =
      (count (safe rb) (blen chunk)
         (set_offset (offset rb + blen chunk)
            (set_buffer (list_inserts (Z.to_nat (offset rb)) chunk (buffer rb)) rb)),
       Ok (as_view (safe rb) (totalOffset rb + capacity rb)
             (IsBuffer {| byteOffset := offset rb; byteLength := blen chunk |}))) →
    write_case chunk rb
| case_wrap :
    blen chunk <= capacity rb → offset rb + blen chunk > capacity rb →
    write chunk rb =
      (count (safe rb) (blen chunk)
         (set_offset (blen chunk - (capacity rb - offset rb))
            (set_buffer
               (list_inserts 0 (drop (Z.to_nat (capacity rb - offset rb)) chunk)
                  (list_inserts (Z.to_nat (offset rb))
                     (take (Z.to_nat (capacity rb - offset rb)) chunk) (buffer rb)))
               rb)),
       Ok (as_view (safe rb) (totalOffset rb + capacity rb)
             (IsBufferList (new_BufferList
                [ {| byteOffset := offset rb; byteLength := capacity rb - offset rb |};
                  {| byteOffset := 0;
                     byteLength := blen chunk - (capacity rb - offset rb) |} ])))) →
    write_case chunk rb.

(** The object behind a view, trap or no trap. *)
Definition View_raw (v : View) : Raw :=
  match v with
  | Unproxied r => r
  | Proxied target _ => IsBufferList target
  end.

(** The condition the [get] trap tests; a view without a trap never
    meets it. *)
Definition stale (rb : RingBuffer) (v : View) : Prop :=
  match v with
  | Unproxied _ => False
  | Proxied _ safeOffset => totalOffset rb > safeOffset
  end.

#[global] Instance stale_dec rb v : Decision (stale rb v).
Proof. destruct v; simpl; apply _. Defined.

(** ** Concrete rings used by the examples *)

(** [buffer.constants.MAX_LENGTH] of a 64-bit build, and an allocator whose
    memory holds zeros. *)
Definition example_kMaxLength : Z := 2 ^ 53 - 1.
Definition zeroed : Z → option (nat → byte) := λ _, Some (λ _, x00).

Definition ring10 (st sf : bool) : RingBuffer :=
  {| buffer := replicate 10 x00; offset := 0; strict := st; safe := sf;
     totalOffset := 0 |}.

(** ** How long a view stays intact

    A write of [n <= capacity] bytes at offset [a] occupies the positions
    [a .. a+n-1], taken around the end of the storage.  With [g] bytes left
    before the offset [o] comes round to [a] again, writes of at most [g]
    bytes in total stay clear of them. *)

Definition occupied (cap a n p : Z) : Prop :=
  a <= p < a + n ∨ p + cap < a + n.

Definition ahead (cap o g a : Z) : Prop :=
  o + g = a ∨ o + g = a + cap ∨ o + g + cap = a ∨ o + g = a + 2 * cap.

(** The state of a view made at offset [a] for [n] bytes of memory [mem1],
    seen from a later state [rb] of a safe ring of capacity [cap]: the
    counter has not gone back, and as long as it has not passed
    [safeOffset] the offset is still short of [a] and the positions the
    view occupies hold what they held. *)
Definition intact (cap a n safeOffset : Z) (mem1 : list byte) (rb : RingBuffer)
    : Prop :=
  safeOffset - cap + n <= totalOffset rb ∧
  (totalOffset rb <= safeOffset →
     ahead cap (offset rb) (safeOffset - totalOffset rb) a ∧
     ∀ p : nat, occupied cap a n (Z.of_nat p) → Z.of_nat p < cap →
       buffer rb !! p = mem1 !! p).

(** ** Runs of writes: what is counted, and the storage in ring order *)

(** The bytes of a run of chunks, counted. *)
Definition total_length (chunks : list (list byte)) : Z :=
  foldr (λ chunk acc, blen chunk + acc) 0 chunks.

(** The bytes of the chunks of a run that [write] lets through on a ring
    with the given mode and capacity: all of them, but for the oversized
    chunks of a strict ring. *)
Definition counted (st : bool) (cap : Z) (chunks : list (list byte)) : Z :=
  foldr (λ chunk acc,
           if decide (st = true ∧ blen chunk > cap) then acc
           else blen chunk + acc) 0 chunks.

(** The storage read once round from the offset: the position written
    next comes first, the position written last comes last. *)
Definition ring_order (rb : RingBuffer) : list byte :=
  drop (Z.to_nat (offset rb)) (buffer rb) ++
  take (Z.to_nat (offset rb)) (buffer rb).

(** The last [k] elements of a list (all of it when it is shorter). *)
Definition last_bytes (k : nat) (l : list byte) : list byte :=
  drop (length l - k) l.

(** * Proofs *)

(** ** node:buffer facts *)

Lemma blen_nonneg mem : 0 <= blen mem.
Proof. unfold blen. lia. Qed.

Lemma lookup_list_inserts (l k : list byte) (i j : nat) :
  list_inserts i k l !! j =
    if decide ((i ≤ j < i + length k)%nat ∧ (j < length l)%nat)
    then k !! (j - i)%nat else l !! j.
Proof.
  case_decide as H.
  - apply list_lookup_inserts; lia.
  - destruct (decide (j < i)%nat); [by apply list_lookup_inserts_lt|].
    destruct (decide (i + length k ≤ j)%nat); [by apply list_lookup_inserts_ge|].
    rewrite !lookup_ge_None_2; [done|lia|rewrite length_inserts; lia].
Qed.

Lemma list_inserts_take (l k : list byte) (i m : nat) :
  (length l - i ≤ m)%nat → list_inserts i (take m k) l = list_inserts i k l.
Proof.
  intros Hm. apply list_eq. intros j. rewrite !lookup_list_inserts, length_take.
  repeat case_decide; try lia; try done.
  apply lookup_take_lt. lia.
Qed.

Lemma list_inserts_whole (k l : list byte) :
  length k = length l → list_inserts 0 k l = k.
Proof.
  intros Hlen. rewrite <- (app_nil_r l), list_inserts_0_r by done.
  apply app_nil_r.
Qed.

(** Within its argument ranges [copy] never throws, and it overwrites the
    target from [targetStart] on with [source[sourceStart:sourceEnd]], cut
    off at the end of the target. *)
Lemma Buffer_copy_spec source target targetStart sourceStart sourceEnd :
  let ts := default 0 targetStart in
  let ss := default 0 sourceStart in
  let se := default (blen source) sourceEnd in
  0 <= ts → 0 <= ss <= se → se <= blen source →
  Buffer_copy source target targetStart sourceStart sourceEnd =
    Ok (list_inserts (Z.to_nat ts)
          (take (Z.to_nat (se - ss)) (drop (Z.to_nat ss) source)) target).
Proof.
  intros ts ss se Hts Hss Hse. unfold Buffer_copy, blen in *.
  fold ts ss se.
  repeat case_decide; try lia; f_equal.
  - apply list_eq. intros j. rewrite lookup_list_inserts, length_take, length_drop.
    case_decide; [lia|done].
  - rewrite <- (list_inserts_take target (take (Z.to_nat (se - ss)) _)
                  _ (Z.to_nat (ss + Z.of_nat (length target) - ts - ss))) by lia.
    rewrite take_take. f_equal. f_equal. lia.
Qed.

(** ** One step of [#write], branch by branch *)

Lemma write_private_reject chunk rb :
  blen chunk > capacity rb → strict rb = true →
  write_private chunk rb = (rb, Throw ChunkTooLarge).
Proof.
  intros Hn Hs. unfold write_private, mbind, M_bind, gets, throw; simpl.
  case_decide; [|lia]. by rewrite Hs.
Qed.

Lemma write_private_truncate chunk rb :
  blen chunk > capacity rb → strict rb = false →
  write_private chunk rb =
    (set_buffer (drop (Z.to_nat (blen chunk - capacity rb)) chunk) rb,
     Ok (IsBuffer (this_buffer rb))).
Proof.
  intros Hn Hs. unfold write_private, mbind, M_bind, gets, throw, copy_to_buffer; simpl.
  case_decide; [|lia]. rewrite Hs.
  rewrite Buffer_copy_spec; simpl; unfold capacity, blen in *; try lia.
  rewrite take_ge by (rewrite length_drop; lia).
  change (Z.to_nat 0) with 0%nat.
  rewrite list_inserts_whole by (rewrite length_drop; lia).
  unfold this_buffer, set_buffer, mret, M_ret, capacity, blen; simpl.
  rewrite length_drop. do 4 f_equal. lia.
Qed.

Lemma write_private_fit chunk rb :
  wf rb → offset rb + blen chunk <= capacity rb →
  write_private chunk rb =
    (set_offset (offset rb + blen chunk)
       (set_buffer (list_inserts (Z.to_nat (offset rb)) chunk (buffer rb)) rb),
     Ok (IsBuffer {| byteOffset := offset rb; byteLength := blen chunk |})).
Proof.
  intros [Ho Hc] Hfit. pose proof (blen_nonneg chunk) as Hn.
  unfold write_private, mbind, M_bind, gets, modify, copy_to_buffer; simpl.
  case_decide; [lia|]. case_decide; [lia|].
  rewrite Buffer_copy_spec; simpl; try lia.
  unfold mret, M_ret, this_buffer, subarray, clamp_index, capacity, blen in *; simpl.
  rewrite Z.sub_0_r, drop_0, Nat2Z.id, firstn_all, length_inserts.
  repeat case_decide; try lia. do 3 f_equal. f_equal; lia.
Qed.

Lemma write_private_wrap chunk rb :
  wf rb → blen chunk <= capacity rb → offset rb + blen chunk > capacity rb →
  let remaining := capacity rb - offset rb in
  write_private chunk rb =
    (set_offset (blen chunk - remaining)
       (set_buffer
          (list_inserts 0 (drop (Z.to_nat remaining) chunk)
             (list_inserts (Z.to_nat (offset rb)) (take (Z.to_nat remaining) chunk)
                (buffer rb))) rb),
     Ok (IsBufferList (new_BufferList
           [ {| byteOffset := offset rb; byteLength := remaining |};
             {| byteOffset := 0; byteLength := blen chunk - remaining |} ]))).
Proof.
  intros [Ho Hc] Hn Hwrap remaining. subst remaining.
  unfold write_private, mbind, M_bind, gets, modify, copy_to_buffer; simpl.
  case_decide; [lia|]. case_decide; [|lia].
  rewrite Buffer_copy_spec; simpl; try lia.
  rewrite Buffer_copy_spec; simpl; try lia.
  unfold mret, M_ret, this_buffer, subarray, clamp_index, new_BufferList,
    capacity, blen in *; simpl.
  rewrite Z.sub_0_r, drop_0, !length_inserts.
  rewrite (take_ge (drop _ _)) by (rewrite length_drop; lia).
  repeat case_decide; try lia.
  do 3 f_equal. f_equal; [f_equal; [f_equal; lia | f_equal; f_equal; lia] | lia].
Qed.

(** ** [write] on top of [#write] *)

Lemma write_unfold chunk rb :
  write chunk rb =
    match write_private chunk rb with
    | (rb1, Ok r) =>
        (count (safe rb) (blen chunk) rb1,
         Ok (as_view (safe rb) (totalOffset rb + capacity rb) r))
    | (rb1, Throw e) => (rb1, Throw e)
    end.
Proof.
  unfold write, mbind, M_bind, gets, modify, mret, M_ret, as_view, count; simpl.
  destruct (safe rb); simpl; by destruct (write_private chunk rb) as [rb1 [r|e]].
Qed.

Lemma write_cases chunk rb : wf rb → write_case chunk rb.
Proof.
  intros Hwf. pose proof Hwf as [Ho Hc]. pose proof (blen_nonneg chunk) as Hn.
  destruct (decide (blen chunk > capacity rb)) as [Hbig|Hsmall].
  - destruct (strict rb) eqn:Hs.
    + apply case_reject; auto.
      by rewrite write_unfold, write_private_reject.
    + apply case_truncate; auto.
      by rewrite write_unfold, write_private_truncate.
  - destruct (decide (offset rb + blen chunk > capacity rb)) as [Hwrap|Hfit].
    + apply case_wrap; auto with lia.
      rewrite write_unfold, write_private_wrap by (auto with lia). done.
    + apply case_fit; auto with lia.
      rewrite write_unfold, write_private_fit by (auto with lia). done.
Qed.

Lemma capacity_count sf n rb : capacity (count sf n rb) = capacity rb.
Proof. by destruct sf. Qed.
Lemma offset_count sf n rb : offset (count sf n rb) = offset rb.
Proof. by destruct sf. Qed.
Lemma strict_count sf n rb : strict (count sf n rb) = strict rb.
Proof. by destruct sf. Qed.
Lemma safe_count sf n rb : safe (count sf n rb) = safe rb.
Proof. by destruct sf. Qed.
Lemma buffer_count sf n rb : buffer (count sf n rb) = buffer rb.
Proof. by destruct sf. Qed.

(** A write keeps the size of the memory, the two flags, and the offset
    within [0, capacity]. *)
Lemma write_preserves chunk rb :
  wf rb →
  let rb' := fst (write chunk rb) in
  wf rb' ∧ capacity rb' = capacity rb ∧ strict rb' = strict rb ∧ safe rb' = safe rb.
Proof.
  intros Hwf. pose proof Hwf as [Ho Hc]. pose proof (blen_nonneg chunk) as Hn.
  destruct (write_cases chunk rb Hwf) as [? ? ->|? ? ->|? ? ->|? ? ->]; simpl;
    unfold wf; rewrite capacity_count, offset_count, strict_count, safe_count
      || idtac; simpl.
  - done.
  - unfold capacity, blen in *; simpl. rewrite length_drop. repeat split; lia.
  - unfold capacity, blen in *; simpl. rewrite length_inserts. repeat split; lia.
  - unfold capacity, blen in *; simpl. rewrite !length_inserts. repeat split; lia.
Qed.

Lemma writes_snoc rb chunks chunk :
  writes rb (chunks ++ [chunk]) = fst (write chunk (writes rb chunks)).
Proof. unfold writes. by rewrite foldl_app. Qed.

Lemma writes_cons rb chunk chunks :
  writes rb (chunk :: chunks) = writes (fst (write chunk rb)) chunks.
Proof. done. Qed.

Lemma writes_preserves chunks rb :
  wf rb →
  wf (writes rb chunks) ∧ capacity (writes rb chunks) = capacity rb ∧
  strict (writes rb chunks) = strict rb ∧ safe (writes rb chunks) = safe rb.
Proof.
  revert rb. induction chunks as [|chunk chunks IH]; intros rb Hwf.
  - done.
  - rewrite writes_cons.
    destruct (write_preserves chunk rb Hwf) as (Hwf1 & Hc1 & Hs1 & Hf1).
    destruct (IH _ Hwf1) as (? & ? & ? & ?).
    split; [done|]. split; [congruence|]. split; congruence.
Qed.

Lemma new_RingBuffer_ok kMaxLength garbage size st sf content :
  0 <= size <= kMaxLength → garbage size = Some content →
  new_RingBuffer kMaxLength garbage size st sf =
    Ok {| buffer := content <$> seq 0 (Z.to_nat size); offset := 0;
          strict := st; safe := sf; totalOffset := 0 |}.
Proof.
  intros Hsize Hmem. unfold new_RingBuffer, allocUnsafe.
  case_decide; [lia|]. by rewrite Hmem.
Qed.

Lemma new_RingBuffer_inv kMaxLength garbage size st sf rb :
  new_RingBuffer kMaxLength garbage size st sf = Ok rb →
  0 <= size <= kMaxLength ∧
  ∃ content, garbage size = Some content ∧
    rb = {| buffer := content <$> seq 0 (Z.to_nat size); offset := 0;
            strict := st; safe := sf; totalOffset := 0 |}.
Proof.
  unfold new_RingBuffer, allocUnsafe. case_decide; [done|].
  destruct (garbage size) as [content|]; [|done].
  intros [= <-]. split; [lia|]. by exists content.
Qed.

Lemma new_RingBuffer_wf kMaxLength garbage size st sf rb :
  new_RingBuffer kMaxLength garbage size st sf = Ok rb →
  wf rb ∧ capacity rb = size.
Proof.
  intros [Hsize (content & _ & ->)]%new_RingBuffer_inv.
  unfold wf, capacity, blen; simpl.
  rewrite length_fmap, length_seq. lia.
Qed.

(** ** Reading: the trap, and what is behind it *)

Lemma View_target_spec rb v :
  View_target rb v =
    if decide (stale rb v) then
      if strict rb then Throw StaleViewAccess else Ok (IsBufferList emptyBufferList)
    else Ok (View_raw v).
Proof.
  destruct v as [r|target safeOffset]; simpl; [done|].
  unfold proxy_get. case_decide; [|done]. by destruct (strict rb).
Qed.

Lemma Raw_bytes_empty mem : Raw_bytes mem (IsBufferList emptyBufferList) = [].
Proof. done. Qed.

Lemma Raw_bytes_as_view mem sf safeOffset r :
  Raw_bytes mem (View_raw (as_view sf safeOffset r)) = Raw_bytes mem r.
Proof.
  destruct sf, r; simpl; try done.
  unfold BufferList_slice; simpl. apply app_nil_r.
Qed.

Lemma Raw_length_as_view sf safeOffset r :
  Raw_length (View_raw (as_view sf safeOffset r)) = Raw_length r.
Proof. destruct sf, r; simpl; try done. lia. Qed.

Lemma View_segments_as_view sf safeOffset r :
  View_segments (as_view sf safeOffset r) = View_segments (Unproxied r).
Proof. by destruct sf, r. Qed.

Lemma stale_as_view rb sf safeOffset r :
  stale rb (as_view sf safeOffset r) ↔ sf = true ∧ totalOffset rb > safeOffset.
Proof. destruct sf; simpl; [|split]; intuition congruence. Qed.

(** A read that passes the trap (or meets none) shows the live memory. *)
Lemma View_fresh rb v :
  ¬ stale rb v →
  View_slice rb v = Ok (Raw_bytes (buffer rb) (View_raw v)) ∧
  View_length rb v = Ok (Raw_length (View_raw v)).
Proof.
  intros Hfresh. unfold View_slice, View_length. rewrite View_target_spec.
  by case_decide.
Qed.

(** A read the trap catches: an error in strict mode, nothing otherwise. *)
Lemma View_stale rb v :
  stale rb v →
  View_slice rb v = (if strict rb then Throw StaleViewAccess else Ok []) ∧
  View_length rb v = (if strict rb then Throw StaleViewAccess else Ok 0) ∧
  View_toString_hex rb v =
    (if strict rb then Throw StaleViewAccess else Ok EmptyString) ∧
  ∀ i, View_byte rb v i = (if strict rb then Throw StaleViewAccess else Ok None).
Proof.
  intros Hstale.
  unfold View_toString_hex, View_slice, View_length, View_byte.
  rewrite View_target_spec. case_decide; [|done].
  destruct (strict rb); simpl; [done|].
  repeat split. intros i. f_equal.
  unfold BufferList_get, BufferList_offset, Buffer_at. simpl.
  destruct (decide (i > 0 + 0 ∨ i < 0)); [done|].
  destruct (decide (i = 0)) as [->|]; [|lia].
  simpl. by destruct (decide (0 <= 0 < 0)).
Qed.

(** ** Memory after a write, position by position *)

Lemma Buffer_bytes_lookup mem b (j : nat) :
  Buffer_bytes mem b !! j =
    if decide (j < Z.to_nat (byteLength b))%nat
    then mem !! (Z.to_nat (byteOffset b) + j)%nat else None.
Proof. unfold Buffer_bytes. rewrite lookup_take, lookup_drop. done. Qed.

(** Two memories that agree under a window show the same bytes. *)
Lemma Buffer_bytes_ext mem mem' b :
  (∀ p : nat, (Z.to_nat (byteOffset b) ≤ p < Z.to_nat (byteOffset b) + Z.to_nat (byteLength b))%nat →
     mem' !! p = mem !! p) →
  Buffer_bytes mem' b = Buffer_bytes mem b.
Proof.
  intros Hagree. apply list_eq. intros j. rewrite !Buffer_bytes_lookup.
  case_decide; [|done]. apply Hagree. lia.
Qed.

Lemma lookup_after_fit (mem chunk : list byte) (o p : nat) :
  (o + length chunk ≤ length mem)%nat →
  list_inserts o chunk mem !! p =
    if decide (o ≤ p < o + length chunk)%nat then chunk !! (p - o)%nat else mem !! p.
Proof.
  intros Hfit. rewrite lookup_list_inserts.
  repeat case_decide; try lia; done.
Qed.

Lemma lookup_after_wrap (mem chunk : list byte) (o p : nat) :
  (o ≤ length mem)%nat → (length chunk ≤ length mem)%nat →
  (length mem < o + length chunk)%nat →
  let r := (length mem - o)%nat in
  list_inserts 0 (drop r chunk) (list_inserts o (take r chunk) mem) !! p =
    if decide (p + length mem < o + length chunk)%nat then chunk !! (r + p)%nat
    else if decide (o ≤ p < length mem)%nat then chunk !! (p - o)%nat
    else mem !! p.
Proof.
  intros Ho Hn Hwrap r. subst r.
  rewrite !lookup_list_inserts, !length_inserts, length_drop, length_take.
  rewrite lookup_drop, lookup_take.
  repeat case_decide; try lia; try done.
  f_equal. lia.
Qed.

(** The memory a wrapping write leaves, in the terms of [lookup_after_wrap]. *)
Lemma wrap_memory_nat (mem chunk : list byte) (o : Z) :
  0 <= o <= blen mem →
  list_inserts 0 (drop (Z.to_nat (blen mem - o)) chunk)
    (list_inserts (Z.to_nat o) (take (Z.to_nat (blen mem - o)) chunk) mem) =
  list_inserts 0 (drop (length mem - Z.to_nat o)%nat chunk)
    (list_inserts (Z.to_nat o) (take (length mem - Z.to_nat o)%nat chunk) mem).
Proof.
  intros Ho. unfold blen in *.
  by replace (Z.to_nat (Z.of_nat (length mem) - o))
    with (length mem - Z.to_nat o)%nat by lia.
Qed.

Lemma read_back_fit (mem chunk : list byte) (o : Z) :
  0 <= o → o + blen chunk <= blen mem →
  Buffer_bytes (list_inserts (Z.to_nat o) chunk mem)
    {| byteOffset := o; byteLength := blen chunk |} = chunk.
Proof.
  intros Ho Hfit. unfold blen in *. apply list_eq. intros j.
  rewrite Buffer_bytes_lookup; simpl.
  rewrite lookup_after_fit by lia.
  repeat case_decide; try lia.
  - f_equal. lia.
  - symmetry. apply lookup_ge_None_2. lia.
Qed.

Lemma read_back_wrap (mem chunk : list byte) (o : Z) :
  0 <= o <= blen mem → blen chunk <= blen mem → o + blen chunk > blen mem →
  let mem' :=
    list_inserts 0 (drop (Z.to_nat (blen mem - o)) chunk)
      (list_inserts (Z.to_nat o) (take (Z.to_nat (blen mem - o)) chunk) mem) in
  Buffer_bytes mem' {| byteOffset := o; byteLength := blen mem - o |} =
    take (Z.to_nat (blen mem - o)) chunk ∧
  Buffer_bytes mem' {| byteOffset := 0; byteLength := blen chunk - (blen mem - o) |} =
    drop (Z.to_nat (blen mem - o)) chunk.
Proof.
  intros Ho Hn Hwrap mem'. subst mem'. rewrite wrap_memory_nat by done.
  unfold blen in *. split; apply list_eq; intros j.
  - rewrite Buffer_bytes_lookup; simpl.
    rewrite lookup_after_wrap by lia. rewrite lookup_take.
    repeat case_decide; try lia; [f_equal; lia|done].
  - rewrite Buffer_bytes_lookup; simpl.
    rewrite lookup_after_wrap by lia. rewrite lookup_drop.
    repeat case_decide; try lia.
    + f_equal. lia.
    + symmetry. apply lookup_ge_None_2. lia.
Qed.

(** A write that fits the buffer returns a view which, right after the
    write, passes the trap and shows the chunk. *)
Lemma write_read_back chunk rb :
  wf rb → blen chunk <= capacity rb →
  ∃ rb' v, write chunk rb = (rb', Ok v) ∧ ¬ stale rb' v ∧
    Raw_bytes (buffer rb') (View_raw v) = chunk ∧
    Raw_length (View_raw v) = blen chunk.
Proof.
  intros Hwf Hn. pose proof Hwf as [Ho Hc].
  destruct (write_cases chunk rb Hwf) as [?|?|? ? Hw|? ? Hw]; try lia;
    rewrite Hw; eexists _, _; (split; [reflexivity|]);
    rewrite stale_as_view, Raw_bytes_as_view, Raw_length_as_view, buffer_count.
  - split; [|split; [|done]].
    + intros [Hsf Hst]. rewrite Hsf in Hst. simpl in Hst. unfold capacity in *. lia.
    + simpl. apply read_back_fit; unfold capacity in *; lia.
  - split; [|split].
    + intros [Hsf Hst]. rewrite Hsf in Hst. simpl in Hst. unfold capacity in *. lia.
    + simpl. unfold BufferList_slice, capacity in *; simpl. rewrite app_nil_r.
      destruct (read_back_wrap (buffer rb) chunk (offset rb)) as [-> ->];
        [done..|]. apply take_drop.
    + simpl. lia.
Qed.

Lemma isBuffer_as_view sf safeOffset r :
  isBuffer (as_view sf safeOffset r) =
    negb sf && match r with IsBuffer _ => true | IsBufferList _ => false end.
Proof. by destruct sf, r. Qed.

Lemma instanceof_BufferList_as_view sf safeOffset r :
  instanceof_BufferList (as_view sf safeOffset r) =
    sf || match r with IsBuffer _ => false | IsBufferList _ => true end.
Proof. by destruct sf, r. Qed.

(** ** Examples *)

Lemma new_ring10 st sf :
  new_RingBuffer example_kMaxLength zeroed 10 st sf = Ok (ring10 st sf).
Proof. reflexivity. Qed.

(** ** The wrap branch *)

(** C1. In a reachable state, a write of a chunk of length n <= capacity
    with offset + n > capacity returns a two-segment view: first
    [storage[offset:capacity]], then [storage[0:n - remaining]], where
    remaining = capacity - offset.  Right after the write the two segments,
    read in that order, are the chunk byte for byte, the view has length n,
    and the offset is n - remaining.  This holds in every mode (in safe mode
    the two segments sit behind the Proxy, which lets the read through). *)
Theorem C1_wrap_returns_the_chunk chunk rb :
  wf rb → blen chunk <= capacity rb → offset rb + blen chunk > capacity rb →
  let remaining := capacity rb - offset rb in
  ∃ rb' v, write chunk rb = (rb', Ok v) ∧
    View_segments v =
      [ {| byteOffset := offset rb; byteLength := remaining |};
        {| byteOffset := 0; byteLength := blen chunk - remaining |} ] ∧
    instanceof_BufferList v = true ∧
    drop (Z.to_nat (offset rb)) (buffer rb') ++
      take (Z.to_nat (blen chunk - remaining)) (buffer rb') = chunk ∧
    View_length rb' v = Ok (blen chunk) ∧
    View_slice rb' v = Ok chunk ∧
    offset rb' = blen chunk - remaining.
Proof.
  intros Hwf Hn Hwrap remaining. subst remaining. pose proof Hwf as [Ho Hc].
  destruct (write_cases chunk rb Hwf) as [?|?|?|? ? Hw']; try lia.
  destruct (write_read_back chunk rb Hwf Hn) as (rb' & v & Hw & Hfresh & Hbytes & Hlen).
  rewrite Hw' in Hw. injection Hw as <- <-.
  destruct (View_fresh _ _ Hfresh) as [Hslice Hlength].
  eexists _, _. split; [exact Hw'|].
  rewrite Hslice, Hlength, Hbytes, Hlen.
  rewrite View_segments_as_view, instanceof_BufferList_as_view, orb_true_r,
    offset_count. simpl.
  repeat split.
  rewrite Raw_bytes_as_view, buffer_count in Hbytes. simpl in Hbytes.
  unfold BufferList_slice, Buffer_bytes in Hbytes. simpl in Hbytes.
  rewrite app_nil_r in Hbytes.
  rewrite take_ge in Hbytes
    by (rewrite length_drop, !length_inserts; unfold capacity, blen in *; lia).
  rewrite buffer_count. exact Hbytes.
Qed.

Lemma C1_wrap_returns_the_chunk_witness :
  let rb := {| buffer := replicate 10 x00; offset := 9; strict := false;
               safe := true; totalOffset := 9 |} in
  let chunk := [xdc; xba; x09] in
  ∃ rb' v, write chunk rb = (rb', Ok v) ∧
    View_segments v =
      [ {| byteOffset := 9; byteLength := 1 |};
        {| byteOffset := 0; byteLength := 2 |} ] ∧
    instanceof_BufferList v = true ∧
    drop 9 (buffer rb') ++ take 2 (buffer rb') = chunk ∧
    View_length rb' v = Ok 3 ∧
    View_slice rb' v = Ok chunk ∧
    offset rb' = 2.
Proof.
  intros rb chunk.
  apply (C1_wrap_returns_the_chunk chunk rb); by vm_compute.
Defined.

(** C10. In a reachable state, every write taken by the wrap branch
    (n <= capacity and offset + n > capacity) returns a two-segment view
    whose second segment has length offset + n - capacity >= 1; its first
    segment is empty exactly when the offset equals the capacity at the
    start of the write, and the view is of the BufferList kind, never a
    Buffer, also then. *)
Theorem C10_wrap_segments chunk rb :
  wf rb → blen chunk <= capacity rb → offset rb + blen chunk > capacity rb →
  ∃ rb' v first second, write chunk rb = (rb', Ok v) ∧
    View_segments v = [first; second] ∧
    byteLength second = offset rb + blen chunk - capacity rb ∧
    byteLength second >= 1 ∧
    (byteLength first = 0 ↔ offset rb = capacity rb) ∧
    instanceof_BufferList v = true ∧ isBuffer v = false.
Proof.
  intros Hwf Hn Hwrap. pose proof Hwf as [Ho Hc].
  destruct (write_cases chunk rb Hwf) as [?|?|?|? ? Hw]; try lia.
  rewrite Hw. eexists _, _, _, _. split; [reflexivity|].
  rewrite View_segments_as_view, instanceof_BufferList_as_view,
    isBuffer_as_view, orb_true_r, andb_false_r. simpl.
  split; [reflexivity|]. simpl. repeat split; lia.
Qed.

Lemma C10_wrap_segments_witness :
  let rb := writes (ring10 false false)
              [[x12; x34; x56; x78; x90; xab; xcd; xef; xfe; xdc]] in
  offset rb = capacity rb ∧
  ∃ rb' v first second, write [xba] rb = (rb', Ok v) ∧
    View_segments v = [first; second] ∧
    byteLength second = offset rb + 1 - capacity rb ∧
    byteLength second >= 1 ∧
    (byteLength first = 0 ↔ offset rb = capacity rb) ∧
    instanceof_BufferList v = true ∧ isBuffer v = false.
Proof.
  intros rb. split; [reflexivity|].
  apply (C10_wrap_segments [xba] rb); by vm_compute.
Defined.

(** ** Oversized chunks *)

(** C5. In strict mode a chunk longer than the capacity is rejected with
    ChunkTooLarge and the ring is left exactly as it was (memory, offset and
    counter), in safe mode or not; any later write behaves as if the
    rejected one had not been made, and one that fits returns a view of its
    chunk. *)
Theorem C5_strict_reject_is_atomic chunk rb :
  strict rb = true → blen chunk > capacity rb →
  write chunk rb = (rb, Throw ChunkTooLarge) ∧
  (∀ chunk2, write chunk2 (fst (write chunk rb)) = write chunk2 rb) ∧
  (wf rb → ∀ chunk2, blen chunk2 <= capacity rb →
     ∃ rb' v, write chunk2 (fst (write chunk rb)) = (rb', Ok v) ∧
       View_slice rb' v = Ok chunk2 ∧ View_length rb' v = Ok (blen chunk2)).
Proof.
  intros Hs Hbig.
  assert (write chunk rb = (rb, Throw ChunkTooLarge)) as Hw.
  { by rewrite write_unfold, write_private_reject. }
  rewrite Hw. simpl. split; [done|]. split; [done|].
  intros Hwf chunk2 Hfit.
  destruct (write_read_back chunk2 rb Hwf Hfit) as (rb' & v & Hw2 & Hfresh & Hbytes & Hlen).
  destruct (View_fresh _ _ Hfresh) as [Hslice Hlength].
  exists rb', v. by rewrite Hslice, Hlength, Hbytes, Hlen.
Qed.

Lemma C5_strict_reject_is_atomic_witness :
  let rb := fst (write [x12; x34; x56] (ring10 true true)) in
  let chunk := [x12; x34; x56; x78; x90; xab; xcd; xef; xfe; xdc; xba] in
  write chunk rb = (rb, Throw ChunkTooLarge) ∧
  (∀ chunk2, write chunk2 (fst (write chunk rb)) = write chunk2 rb) ∧
  (wf rb → ∀ chunk2, blen chunk2 <= capacity rb →
     ∃ rb' v, write chunk2 (fst (write chunk rb)) = (rb', Ok v) ∧
       View_slice rb' v = Ok chunk2 ∧ View_length rb' v = Ok (blen chunk2)).
Proof.
  intros rb chunk.
  apply (C5_strict_reject_is_atomic chunk rb); by vm_compute.
Defined.




(** The truncating branch does not touch the offset at all. *)
Lemma truncating_write_keeps_offset chunk rb :
  strict rb = false → blen chunk > capacity rb →
  offset (fst (write chunk rb)) = offset rb.
Proof.
  intros Hs Hbig. rewrite write_unfold, write_private_truncate by done.
  simpl. by rewrite offset_count.
Qed.

(** ** Construction *)

(** C9 (as the code has it). The constructor has no capacity check of
    its own; it fails when, and only when, the allocator does, and with the
    allocator's error.  So a capacity below 0 is rejected (with the
    allocator's range error), while capacity 0 is not: whenever the
    allocator provides the storage, for capacity 0 as for a capacity above
    0, construction succeeds and gives a ring over that storage with offset
    0 and counter 0.  A failed construction yields no ring, and a ring that
    was constructed has the capacity asked for, which is not negative. *)
Theorem C9_construction kMaxLength garbage size st sf :
  (size < 0 →
     new_RingBuffer kMaxLength garbage size st sf = Throw ERR_OUT_OF_RANGE) ∧
  (∀ e, allocUnsafe kMaxLength garbage size = Throw e ↔
        new_RingBuffer kMaxLength garbage size st sf = Throw e) ∧
  (∀ mem, allocUnsafe kMaxLength garbage size = Ok mem →
     new_RingBuffer kMaxLength garbage size st sf =
       Ok {| buffer := mem; offset := 0; strict := st; safe := sf;
             totalOffset := 0 |}) ∧
  (∀ rb, new_RingBuffer kMaxLength garbage size st sf = Ok rb →
     0 <= size ∧ capacity rb = size ∧ offset rb = 0 ∧ totalOffset rb = 0 ∧
     strict rb = st ∧ safe rb = sf).
Proof.
  split; [|split; [|split]].
  - intros Hneg. unfold new_RingBuffer, allocUnsafe. case_decide; [done|lia].
  - intros e. unfold new_RingBuffer.
    destruct (allocUnsafe kMaxLength garbage size) as [mem|e']; [done|].
    split; congruence.
  - intros mem Hmem. unfold new_RingBuffer. by rewrite Hmem.
  - intros rb Hnew.
    pose proof (new_RingBuffer_wf _ _ _ _ _ _ Hnew) as [_ Hcap].
    apply new_RingBuffer_inv in Hnew as [Hsize (content & _ & ->)].
    repeat split; (done || lia).
Qed.

(** C9, as stated, fails at capacity 0: the construction succeeds and
    gives a ring with empty storage. *)
Lemma C9_capacity_zero_is_accepted :
  new_RingBuffer example_kMaxLength zeroed 0 false false =
    Ok {| buffer := []; offset := 0; strict := false; safe := false;
          totalOffset := 0 |}.
Proof. reflexivity. Qed.

(** ** The offset *)

(** C4 (as the code has it). For every ring the constructor returns and
    every finite run of writes on it, the storage keeps its length and
    0 <= offset <= capacity holds after each write.  The upper bound is
    reached: a write that fills the storage exactly to its end
    (offset + n = capacity) leaves the offset at the capacity. *)
Theorem C4_offset_within_capacity kMaxLength garbage size st sf rb0 chunks :
  new_RingBuffer kMaxLength garbage size st sf = Ok rb0 →
  capacity (writes rb0 chunks) = size ∧
  0 <= offset (writes rb0 chunks) <= capacity (writes rb0 chunks) ∧
  (∀ chunk, offset (writes rb0 chunks) + blen chunk = size →
     offset (fst (write chunk (writes rb0 chunks))) = size).
Proof.
  intros [Hwf Hcap]%new_RingBuffer_wf.
  destruct (writes_preserves chunks rb0 Hwf) as (Hwf' & Hcap' & _).
  split; [congruence|]. split; [exact Hwf'|].
  intros chunk Hfill. pose proof Hwf' as [Ho Hc].
  pose proof (blen_nonneg chunk) as Hn.
  destruct (write_cases chunk (writes rb0 chunks) Hwf') as [?|?|? ? ->|?];
    try lia.
  simpl. rewrite offset_count. simpl. lia.
Qed.

Lemma C4_offset_within_capacity_witness :
  let chunks := [[xab; xcd; xef]; [x12; x34; x56]; [x78; x90; xfe]; [xdc; xba; x09]] in
  let rb0 := ring10 false false in
  capacity (writes rb0 chunks) = 10 ∧
  0 <= offset (writes rb0 chunks) <= capacity (writes rb0 chunks) ∧
  (∀ chunk, offset (writes rb0 chunks) + blen chunk = 10 →
     offset (fst (write chunk (writes rb0 chunks))) = 10).
Proof.
  intros chunks rb0.
  apply (C4_offset_within_capacity example_kMaxLength zeroed 10 false false rb0 chunks).
  reflexivity.
Defined.

(** C4, as stated, fails: a write that fills a fresh ring of capacity 10
    exactly leaves the offset at 10, which is the capacity, not below it. *)
Lemma C4_offset_reaches_capacity :
  let rb := writes (ring10 false false)
              [[x12; x34; x56; x78; x90; xab; xcd; xef; xfe; xdc]] in
  new_RingBuffer example_kMaxLength zeroed 10 false false = Ok (ring10 false false) ∧
  offset rb = 10 ∧ capacity rb = 10 ∧ ¬ offset rb < capacity rb.
Proof. by vm_compute. Qed.

(** ** The counter of safe mode *)

Lemma write_totalOffset chunk rb :
  wf rb →
  totalOffset (fst (write chunk rb)) =
    match snd (write chunk rb) with
    | Ok _ => if safe rb then totalOffset rb + blen chunk else totalOffset rb
    | Throw _ => totalOffset rb
    end.
Proof.
  intros Hwf.
  destruct (write_cases chunk rb Hwf) as [? ? ->|? ? ->|? ? ->|? ? ->]; simpl;
    by destruct (safe rb).
Qed.

(** C6 (as the code has it). In safe mode the counter is 0 after
    construction, and on every ring reached from there by writes a write
    that returns adds the length n of the chunk as passed, also when
    n > capacity and only the last capacity bytes are kept; a write that
    throws leaves the counter as it was.  For n <= capacity the amount is
    min(n, capacity).  The counter is a JavaScript number: this is stated
    for writes that keep it within the integers such a number holds
    exactly. *)
Theorem C6_counter_adds_chunk_length kMaxLength garbage size st rb0 chunks chunk :
  new_RingBuffer kMaxLength garbage size st true = Ok rb0 →
  let rb := writes rb0 chunks in
  totalOffset rb + blen chunk <= MAX_SAFE_INTEGER →
  totalOffset rb0 = 0 ∧
  totalOffset (fst (write chunk rb)) =
    match snd (write chunk rb) with
    | Ok _ => totalOffset rb + blen chunk
    | Throw _ => totalOffset rb
    end ∧
  (blen chunk <= capacity rb → blen chunk = Z.min (blen chunk) (capacity rb)).
Proof.
  intros Hnew rb _.
  pose proof (new_RingBuffer_wf _ _ _ _ _ _ Hnew) as [Hwf _].
  apply new_RingBuffer_inv in Hnew as [_ (content & _ & Hrb0)].
  destruct (writes_preserves chunks rb0 Hwf) as (Hwf' & _ & _ & Hsf).
  fold rb in Hwf', Hsf.
  split; [by subst rb0|].
  split; [|lia].
  rewrite write_totalOffset by done.
  replace (safe rb) with true; [done|]. rewrite Hsf. by subst rb0.
Qed.

Lemma C6_counter_adds_chunk_length_witness :
  let rb0 := ring10 false true in
  let rb := writes rb0 [[xab; xcd; xef]] in
  let chunk := [x12; x34; x56] in
  totalOffset rb0 = 0 ∧
  totalOffset (fst (write chunk rb)) =
    match snd (write chunk rb) with
    | Ok _ => totalOffset rb + blen chunk
    | Throw _ => totalOffset rb
    end ∧
  (blen chunk <= capacity rb → blen chunk = Z.min (blen chunk) (capacity rb)).
Proof.
  intros rb0 rb chunk.
  apply (C6_counter_adds_chunk_length example_kMaxLength zeroed 10 false rb0
           [[xab; xcd; xef]] chunk); [reflexivity|by vm_compute].
Defined.

(** C6, as stated, fails: on a safe, non-strict ring of capacity 10 a write
    of 16 bytes, of which 10 are kept, adds 16 to the counter, not
    min(16, 10) = 10. *)
Lemma C6_counter_not_truncated :
  let chunk := [xab; xcd; xef; x12; x34; x56; x78; x90;
                x09; x87; x65; x43; x21; xfe; xdc; xba] in
  let rb := fst (write chunk (ring10 false true)) in
  blen (buffer rb) = 10 ∧ totalOffset (ring10 false true) = 0 ∧
  totalOffset rb = 16 ∧ totalOffset rb ≠ Z.min (blen chunk) (capacity (ring10 false true)).
Proof. by vm_compute. Qed.

(** ** Views read the live storage *)

(** C7. On a ring of capacity 10, neither strict nor safe, whatever the
    fresh storage holds: after the writes abcdef, 123456, 7890fe and dcba09
    (hex) the view of the fourth write reads dcba09, and the view of the
    first write, which read abcdef when it was returned, now reads ba09ef:
    it shows the storage as it is, with the two bytes the fourth write put
    at positions 0 and 1. *)
Theorem C7_old_view_shows_overwrite kMaxLength garbage rb0 :
  new_RingBuffer kMaxLength garbage 10 false false = Ok rb0 →
  ∃ rb1 v1 rb2 v2 rb3 v3 rb4 v4,
    write [xab; xcd; xef] rb0 = (rb1, Ok v1) ∧
    write [x12; x34; x56] rb1 = (rb2, Ok v2) ∧
    write [x78; x90; xfe] rb2 = (rb3, Ok v3) ∧
    write [xdc; xba; x09] rb3 = (rb4, Ok v4) ∧
    View_toString_hex rb1 v1 = Ok "abcdef"%string ∧
    View_toString_hex rb4 v4 = Ok "dcba09"%string ∧
    View_toString_hex rb4 v1 = Ok "ba09ef"%string ∧
    View_slice rb4 v4 = Ok [xdc; xba; x09] ∧
    View_slice rb4 v1 = Ok [xba; x09; xef] ∧
    isBuffer v1 = true ∧ instanceof_BufferList v4 = true.
Proof.
  intros [_ (content & _ & ->)]%new_RingBuffer_inv.
  do 8 eexists.
  split; [vm_compute; reflexivity|].
  split; [vm_compute; reflexivity|].
  split; [vm_compute; reflexivity|].
  split; [vm_compute; reflexivity|].
  repeat split; vm_compute; reflexivity.
Qed.

Lemma C7_old_view_shows_overwrite_witness :
  ∃ rb1 v1 rb2 v2 rb3 v3 rb4 v4,
    write [xab; xcd; xef] (ring10 false false) = (rb1, Ok v1) ∧
    write [x12; x34; x56] rb1 = (rb2, Ok v2) ∧
    write [x78; x90; xfe] rb2 = (rb3, Ok v3) ∧
    write [xdc; xba; x09] rb3 = (rb4, Ok v4) ∧
    View_toString_hex rb1 v1 = Ok "abcdef"%string ∧
    View_toString_hex rb4 v4 = Ok "dcba09"%string ∧
    View_toString_hex rb4 v1 = Ok "ba09ef"%string ∧
    View_slice rb4 v4 = Ok [xdc; xba; x09] ∧
    View_slice rb4 v1 = Ok [xba; x09; xef] ∧
    isBuffer v1 = true ∧ instanceof_BufferList v4 = true.
Proof.
  apply (C7_old_view_shows_overwrite example_kMaxLength zeroed (ring10 false false)).
  reflexivity.
Defined.

(** ** Telling a wrapped view from a contiguous one *)

(** C8 (as the code has it). The type checks [Buffer.isBuffer] and
    [instanceof BufferList] never run the trap.  In non-safe mode they tell
    the two kinds apart: in a reachable state a write returns a BufferList
    exactly when it takes the wrap branch and a plain Buffer otherwise.  In
    safe mode every write returns a Proxy around a BufferList, a plain
    Buffer being put into a BufferList of one element first, so both checks
    answer the same for a wrapped and for a contiguous write. *)
Theorem C8_type_check chunk rb rb' v :
  wf rb → write chunk rb = (rb', Ok v) →
  let wraps := blen chunk <= capacity rb ∧ offset rb + blen chunk > capacity rb in
  instanceof_BufferList v = negb (isBuffer v) ∧
  (safe rb = false → (isBuffer v = false ↔ wraps)) ∧
  (safe rb = true → isBuffer v = false).
Proof.
  intros Hwf Hw wraps. subst wraps.
  destruct (write_cases chunk rb Hwf) as [? ? Hw'|? ? Hw'|? ? Hw'|? ? Hw'];
    rewrite Hw' in Hw; [done|injection Hw as <- <-..];
    rewrite instanceof_BufferList_as_view, isBuffer_as_view;
    destruct (safe rb); simpl; repeat split; try done; try lia; intros; lia.
Qed.

Lemma C8_type_check_witness :
  let rb := writes (ring10 false false) [[xab; xcd; xef]; [x12; x34; x56]; [x78; x90; xfe]] in
  let chunk := [xdc; xba; x09] in
  ∃ rb' v, write chunk rb = (rb', Ok v) ∧
    instanceof_BufferList v = negb (isBuffer v) ∧
    (safe rb = false →
       (isBuffer v = false ↔
        blen chunk <= capacity rb ∧ offset rb + blen chunk > capacity rb)) ∧
    (safe rb = true → isBuffer v = false).
Proof.
  intros rb chunk. eexists _, _. split; [by vm_compute|].
  eapply (C8_type_check chunk rb); [by vm_compute | vm_compute; reflexivity].
Defined.

(** C8, as stated, fails in safe mode: on a safe ring of capacity 10 the
    first write of 3 bytes does not wrap and the fourth does, yet neither
    view is a Buffer and both are BufferList instances; the two views differ
    only in what is behind the Proxy. *)
Lemma C8_safe_views_look_alike :
  let rb0 := ring10 false true in
  let rb3 := writes rb0 [[xab; xcd; xef]; [x12; x34; x56]; [x78; x90; xfe]] in
  ∃ v1 v4,
    snd (write [xab; xcd; xef] rb0) = Ok v1 ∧
    snd (write [xdc; xba; x09] rb3) = Ok v4 ∧
    offset rb0 + 3 <= capacity rb0 ∧ offset rb3 + 3 > capacity rb3 ∧
    length (View_segments v1) = 1%nat ∧ length (View_segments v4) = 2%nat ∧
    isBuffer v1 = false ∧ isBuffer v4 = false ∧
    instanceof_BufferList v1 = true ∧ instanceof_BufferList v4 = true.
Proof. intros rb0 rb3. eexists _, _. by vm_compute. Qed.

(** ** How long a view stays intact *)

Lemma occupied_disjoint cap a n o m g p :
  0 <= a <= cap → 0 <= o <= cap → 0 <= n → 0 <= m <= g → g + n <= cap →
  ahead cap o g a → 0 <= p < cap →
  occupied cap a n p → ¬ occupied cap o m p.
Proof. unfold ahead, occupied. lia. Qed.

Lemma ahead_step cap a o m g :
  0 <= a <= cap → 0 <= o <= cap → 0 <= m <= g → g <= cap →
  ahead cap o g a →
  ahead cap (if decide (o + m > cap) then o + m - cap else o + m) (g - m) a.
Proof. unfold ahead. case_decide; lia. Qed.

Lemma ahead_start cap a n :
  0 <= a <= cap → 0 <= n <= cap →
  ahead cap (if decide (a + n > cap) then a + n - cap else a + n) (cap - n) a.
Proof. unfold ahead. case_decide; lia. Qed.

(** A write that is not oversized leaves every position it does not occupy
    as it was, and moves the offset on by its length, around the end. *)
Lemma write_untouched chunk rb (p : nat) :
  wf rb → blen chunk <= capacity rb →
  ¬ occupied (capacity rb) (offset rb) (blen chunk) (Z.of_nat p) →
  buffer (fst (write chunk rb)) !! p = buffer rb !! p.
Proof.
  intros Hwf Hn Hfree. pose proof Hwf as [Ho Hc]. unfold occupied in Hfree.
  destruct (write_cases chunk rb Hwf) as [?|?|? ? ->|? ? ->]; try lia; simpl;
    rewrite buffer_count; simpl; unfold capacity, blen in *.
  - rewrite lookup_after_fit by lia. case_decide; [lia|done].
  - fold (blen (buffer rb)). rewrite wrap_memory_nat by (unfold blen; lia).
    rewrite lookup_after_wrap by lia.
    repeat case_decide; try lia; done.
Qed.

Lemma write_offset chunk rb :
  wf rb → blen chunk <= capacity rb →
  offset (fst (write chunk rb)) =
    if decide (offset rb + blen chunk > capacity rb)
    then offset rb + blen chunk - capacity rb else offset rb + blen chunk.
Proof.
  intros Hwf Hn.
  destruct (write_cases chunk rb Hwf) as [?|?|? ? ->|? ? ->]; try lia; simpl;
    rewrite offset_count; simpl; case_decide; lia.
Qed.

Lemma write_totalOffset_mono chunk rb :
  wf rb → totalOffset rb <= totalOffset (fst (write chunk rb)).
Proof.
  intros Hwf. rewrite write_totalOffset by done.
  pose proof (blen_nonneg chunk).
  destruct (snd (write chunk rb)); [destruct (safe rb)|]; lia.
Qed.

(** In safe mode an oversized write that returns pushes the counter on by
    more than the capacity. *)
Lemma write_totalOffset_oversized chunk rb :
  wf rb → safe rb = true → blen chunk > capacity rb →
  fst (write chunk rb) = rb ∨
  totalOffset (fst (write chunk rb)) > totalOffset rb + capacity rb.
Proof.
  intros Hwf Hsf Hbig.
  destruct (write_cases chunk rb Hwf) as [? ? ->|? ? ->|?|?]; try lia; simpl.
  - by left.
  - right. rewrite Hsf. simpl. lia.
Qed.

Lemma write_totalOffset_safe chunk rb :
  wf rb → safe rb = true → blen chunk <= capacity rb →
  totalOffset (fst (write chunk rb)) = totalOffset rb + blen chunk.
Proof.
  intros Hwf Hsf Hn.
  destruct (write_cases chunk rb Hwf) as [?|?|? ? ->|? ? ->]; try lia; simpl;
    by rewrite Hsf.
Qed.

Lemma intact_write cap a n safeOffset mem1 chunk rb :
  wf rb → safe rb = true → capacity rb = cap → 0 <= a <= cap → 0 <= n →
  intact cap a n safeOffset mem1 rb →
  intact cap a n safeOffset mem1 (fst (write chunk rb)).
Proof.
  intros Hwf Hsf Hcap Ha Hn [Hlow Hin]. pose proof Hwf as [Ho Hc].
  pose proof (blen_nonneg chunk) as Hm.
  pose proof (write_totalOffset_mono chunk rb Hwf) as Hmono.
  split; [lia|]. intros Hfresh.
  destruct (decide (blen chunk > capacity rb)) as [Hbig|Hsmall].
  { destruct (write_totalOffset_oversized chunk rb Hwf Hsf Hbig) as [Heq|Hgt].
    - rewrite Heq in *. by apply Hin.
    - lia. }
  rewrite write_totalOffset_safe in * by (done || lia).
  destruct Hin as [Hahead Hmem]; [lia|].
  rewrite write_offset by (done || lia). split.
  - replace (safeOffset - (totalOffset rb + blen chunk))
      with (safeOffset - totalOffset rb - blen chunk) by lia.
    rewrite Hcap. apply ahead_step; try lia. done.
  - intros p Hocc Hp. rewrite write_untouched; [by apply Hmem|done|lia|].
    rewrite Hcap.
    apply (occupied_disjoint cap a n (offset rb) (blen chunk)
             (safeOffset - totalOffset rb)); try lia; done.
Qed.

Lemma intact_writes cap a n safeOffset mem1 chunks rb :
  wf rb → safe rb = true → capacity rb = cap → 0 <= a <= cap → 0 <= n →
  intact cap a n safeOffset mem1 rb →
  intact cap a n safeOffset mem1 (writes rb chunks).
Proof.
  revert rb. induction chunks as [|chunk chunks IH];
    intros rb Hwf Hsf Hcap Ha Hn Hin; [done|].
  rewrite writes_cons.
  destruct (write_preserves chunk rb Hwf) as (Hwf' & Hcap' & _ & Hsf').
  apply IH; try done; try congruence.
  by apply intact_write.
Qed.

Lemma writes_totalOffset_mono chunks rb :
  wf rb → totalOffset rb <= totalOffset (writes rb chunks).
Proof.
  revert rb. induction chunks as [|chunk chunks IH]; intros rb Hwf; [done|].
  rewrite writes_cons.
  destruct (write_preserves chunk rb Hwf) as (Hwf' & _).
  pose proof (write_totalOffset_mono chunk rb Hwf).
  pose proof (IH _ Hwf'). lia.
Qed.

(** The view of a write that is not oversized looks at the positions the
    write occupies and at no other. *)
Lemma view_bytes_ext chunk rb rb1 v mem :
  wf rb → blen chunk <= capacity rb → write chunk rb = (rb1, Ok v) →
  (∀ p : nat, occupied (capacity rb) (offset rb) (blen chunk) (Z.of_nat p) →
     Z.of_nat p < capacity rb → mem !! p = buffer rb1 !! p) →
  Raw_bytes mem (View_raw v) = Raw_bytes (buffer rb1) (View_raw v) ∧
  Raw_length (View_raw v) = blen chunk.
Proof.
  intros Hwf Hn Hw Hagree. pose proof Hwf as [Ho Hc].
  pose proof (blen_nonneg chunk) as Hm. unfold occupied in Hagree.
  destruct (write_cases chunk rb Hwf) as [?|?|? ? Hw'|? ? Hw']; try lia;
    rewrite Hw' in Hw; injection Hw as <- <-;
    rewrite !Raw_bytes_as_view, Raw_length_as_view; simpl;
    rewrite buffer_count in *.
  - split; [|done]. apply Buffer_bytes_ext. simpl. intros p Hp.
    apply Hagree; lia.
  - split; [|lia]. unfold BufferList_slice. simpl.
    f_equal; [|f_equal]; apply Buffer_bytes_ext; simpl; intros p Hp;
      apply Hagree; lia.
Qed.

(** ** Byte access *)

Lemma Buffer_at_bytes mem b i :
  0 <= i → 0 <= byteOffset b →
  Buffer_at mem b i = Buffer_bytes mem b !! Z.to_nat i.
Proof.
  intros Hi Hoff. unfold Buffer_at. rewrite Buffer_bytes_lookup.
  repeat case_decide; try lia; [f_equal; lia|done].
Qed.

Lemma BufferList_get_one mem b i :
  0 <= i → 0 <= byteOffset b → 0 <= byteLength b →
  BufferList_get mem (new_BufferList [b]) i = Buffer_bytes mem b !! Z.to_nat i.
Proof.
  intros Hi Hoff Hlen. unfold BufferList_get, BufferList_offset. simpl.
  destruct (decide (i > byteLength b + 0 ∨ i < 0)).
  { rewrite Buffer_bytes_lookup. case_decide; [lia|done]. }
  destruct (decide (i = 0)) as [->|]; simpl.
  { by apply Buffer_at_bytes. }
  rewrite Z.sub_0_r.
  destruct (decide (i < 0 + byteLength b)); simpl; by apply Buffer_at_bytes.
Qed.

(** With two buffers, index 0 is looked up in the first one whether it
    holds a byte or not; every other index is found where it is. *)
Lemma BufferList_get_two mem b1 b2 i :
  0 <= i → 0 <= byteOffset b1 → 0 <= byteOffset b2 →
  0 <= byteLength b1 → 0 <= byteLength b2 →
  Z.of_nat (length (Buffer_bytes mem b1)) = byteLength b1 →
  (i = 0 → 0 < byteLength b1) →
  BufferList_get mem (new_BufferList [b1; b2]) i =
    (Buffer_bytes mem b1 ++ Buffer_bytes mem b2) !! Z.to_nat i.
Proof.
  intros Hi Hoff1 Hoff2 Hlen1 Hlen2 Hmem Hfirst.
  unfold BufferList_get, BufferList_offset. simpl.
  destruct (decide (i > byteLength b1 + (byteLength b2 + 0) ∨ i < 0)).
  { symmetry. apply lookup_ge_None_2. rewrite length_app.
    pose proof (length_take (drop (Z.to_nat (byteOffset b2)) mem)
                  (Z.to_nat (byteLength b2))) as Hle.
    unfold Buffer_bytes at 2. lia. }
  destruct (decide (i = 0)) as [->|Hne]; simpl.
  { rewrite lookup_app_l by lia. by apply Buffer_at_bytes. }
  rewrite Z.sub_0_r.
  destruct (decide (i < 0 + byteLength b1)); simpl.
  { rewrite lookup_app_l by lia. by apply Buffer_at_bytes. }
  assert (Buffer_at mem b2 (i - (0 + byteLength b1)) =
          (Buffer_bytes mem b1 ++ Buffer_bytes mem b2) !! Z.to_nat i) as Hsecond.
  { rewrite lookup_app_r by lia. rewrite Buffer_at_bytes by lia. f_equal. lia. }
  by destruct (decide (i < 0 + byteLength b1 + byteLength b2)).
Qed.

(** Byte access on the view of a write that is not oversized agrees with
    the bytes the view shows, at every index but one: index 0 of a view
    made with the offset at the capacity. *)
Lemma Raw_byte_view chunk rb rb1 v mem i :
  wf rb → blen chunk <= capacity rb → write chunk rb = (rb1, Ok v) →
  blen mem = capacity rb → 0 <= i →
  (i = 0 → offset rb < capacity rb ∨ chunk = []) →
  Raw_byte mem (View_raw v) i = Raw_bytes mem (View_raw v) !! Z.to_nat i.
Proof.
  intros Hwf Hn Hw Hmem Hi Hfirst. pose proof Hwf as [Ho Hc].
  pose proof (blen_nonneg chunk) as Hm.
  destruct (write_cases chunk rb Hwf) as [?|?|? ? Hw'|? ? Hw']; try lia;
    rewrite Hw' in Hw; injection Hw as <- <-.
  - destruct (safe rb); simpl.
    + unfold BufferList_slice. simpl. rewrite app_nil_r.
      by apply BufferList_get_one.
    + by apply Buffer_at_bytes.
  - assert (Raw_byte mem
              (IsBufferList (new_BufferList
                 [ {| byteOffset := offset rb; byteLength := capacity rb - offset rb |};
                   {| byteOffset := 0;
                      byteLength := blen chunk - (capacity rb - offset rb) |} ])) i =
            Raw_bytes mem
              (IsBufferList (new_BufferList
                 [ {| byteOffset := offset rb; byteLength := capacity rb - offset rb |};
                   {| byteOffset := 0;
                      byteLength := blen chunk - (capacity rb - offset rb) |} ]))
              !! Z.to_nat i) as Hget.
    { simpl. unfold BufferList_slice. simpl. rewrite app_nil_r.
      apply BufferList_get_two; simpl; try lia.
      - unfold Buffer_bytes. simpl. rewrite length_take, length_drop.
        unfold blen in *. lia.
      - intros Hi0. destruct (Hfirst Hi0) as [?| ->]; [lia|].
        unfold blen in *. simpl in *. lia. }
    by destruct (safe rb).
Qed.

(** ** Safe mode *)

(** C2 (as the code has it). In safe mode every view [write] returns is a
    Proxy that records safeOffset = counter before the write + capacity,
    and every read of it goes through the trap, which compares the live
    counter with it.  As long as the counter and safeOffset stay within the
    integers JavaScript numbers hold exactly, after any run of later writes
    on the ring: if the counter has gone strictly past safeOffset, every
    read (length, slice, text, byte) throws StaleViewAccess when the ring is
    strict and shows an empty sequence (length 0, no byte) when it is not;
    if the counter is at most safeOffset, equality included, length, slice
    and text show exactly the chunk that write was given, and so does byte
    access at every index other than 0, and at index 0 when the write
    started with the offset below the capacity or the chunk is empty. *)
Theorem C2_safe_view_reads chunk rb rb1 v chunks :
  wf rb → safe rb = true → write chunk rb = (rb1, Ok v) →
  let rb2 := writes rb1 chunks in
  let safeOffset := totalOffset rb + capacity rb in
  0 <= totalOffset rb → safeOffset <= MAX_SAFE_INTEGER →
  totalOffset rb2 <= MAX_SAFE_INTEGER →
  (∃ target, v = Proxied target safeOffset) ∧
  (totalOffset rb2 > safeOffset →
     View_length rb2 v = (if strict rb then Throw StaleViewAccess else Ok 0) ∧
     View_slice rb2 v = (if strict rb then Throw StaleViewAccess else Ok []) ∧
     View_toString_hex rb2 v =
       (if strict rb then Throw StaleViewAccess else Ok EmptyString) ∧
     ∀ i, View_byte rb2 v i = (if strict rb then Throw StaleViewAccess else Ok None)) ∧
  (totalOffset rb2 <= safeOffset →
     View_length rb2 v = Ok (blen chunk) ∧
     View_slice rb2 v = Ok chunk ∧
     View_toString_hex rb2 v = Ok (hex_of_bytes chunk) ∧
     ∀ i, 0 <= i → (i = 0 → offset rb < capacity rb ∨ chunk = []) →
       View_byte rb2 v i = Ok (chunk !! Z.to_nat i)).
Proof.
  intros Hwf Hsf Hw rb2 safeOffset _ _ _. pose proof Hwf as [Ho Hc].
  pose proof (blen_nonneg chunk) as Hm.
  pose proof (write_preserves chunk rb Hwf) as (Hwf1 & Hcap1 & Hs1 & Hsf1).
  rewrite Hw in Hwf1, Hcap1, Hs1, Hsf1. simpl in Hwf1, Hcap1, Hs1, Hsf1.
  destruct (writes_preserves chunks rb1 Hwf1) as (Hwf2 & Hcap2 & Hs2 & Hsf2).
  fold rb2 in Hwf2, Hcap2, Hs2, Hsf2.
  assert (strict rb2 = strict rb) as Hstrict by congruence.
  assert (∃ target, v = Proxied target safeOffset) as [target Hv].
  { rewrite write_unfold in Hw.
    destruct (write_private chunk rb) as [rb' [r|e]]; [|done].
    injection Hw as _ <-. rewrite Hsf. simpl. by eexists. }
  split; [by eexists|]. split.
  - intros Hpast.
    assert (stale rb2 v) as Hstale by (rewrite Hv; exact Hpast).
    destruct (View_stale _ _ Hstale) as (-> & -> & -> & Hbyte).
    rewrite Hstrict. repeat split. intros i. by rewrite Hbyte, Hstrict.
  - intros Hfresh.
    assert (¬ stale rb2 v) as Hnot by (rewrite Hv; simpl; lia).
    pose proof (writes_totalOffset_mono chunks rb1 Hwf1) as Hmono.
    fold rb2 in Hmono.
    assert (blen chunk <= capacity rb) as Hn.
    { destruct (decide (blen chunk > capacity rb)) as [Hbig|]; [|lia].
      destruct (write_totalOffset_oversized chunk rb Hwf Hsf Hbig) as [Heq|Hgt];
        rewrite Hw in *; simpl in *; [|lia].
      destruct (write_cases chunk rb Hwf) as [? ? Hw'|? ? Hw'|?|?]; try lia;
        rewrite Hw' in Hw; [done|].
      injection Hw as Hrb1 _. rewrite <- Hrb1, Hsf in Hmono. simpl in Hmono. lia. }
    assert (intact (capacity rb) (offset rb) (blen chunk) safeOffset (buffer rb1) rb2)
      as [_ Hin].
    { apply intact_writes; [exact Hwf1|congruence|exact Hcap1|lia|lia|].
      pose proof (write_totalOffset_safe chunk rb Hwf Hsf Hn) as Ht.
      pose proof (write_offset chunk rb Hwf Hn) as Hoff.
      rewrite Hw in Ht, Hoff. simpl in Ht, Hoff.
      split; [subst safeOffset; lia|]. intros _. split; [|done].
      rewrite Hoff, Ht.
      replace (safeOffset - (totalOffset rb + blen chunk))
        with (capacity rb - blen chunk) by (subst safeOffset; lia).
      apply ahead_start; lia. }
    destruct (Hin Hfresh) as [_ Hmem].
    destruct (view_bytes_ext chunk rb rb1 v (buffer rb2) Hwf Hn Hw)
      as [Hbytes Hlen]; [by intros; apply Hmem|].
    destruct (write_read_back chunk rb Hwf Hn) as (rb' & v' & Hw' & _ & Hback & _).
    rewrite Hw in Hw'. injection Hw' as <- <-.
    destruct (View_fresh rb2 v Hnot) as [Hslice Hlength].
    assert (View_target rb2 v = Ok (View_raw v)) as Htarget.
    { rewrite View_target_spec. by destruct (decide (stale rb2 v)). }
    unfold View_toString_hex, View_byte.
    rewrite Hslice, Hlength, Htarget, Hbytes, Hback, Hlen. simpl.
    repeat split. intros i Hi Hfirst. f_equal.
    rewrite (Raw_byte_view chunk rb rb1 v (buffer rb2) i); try done.
    + by rewrite Hbytes, Hback.
    + unfold capacity in *. congruence.
Qed.

Lemma C2_safe_view_reads_witness :
  let rb := ring10 true true in
  let chunk := [x01; x23; x45; x67; x89; xab; xcd; xef; xfe; xdc] in
  ∃ rb1 v, write chunk rb = (rb1, Ok v) ∧
    totalOffset rb1 = totalOffset rb + capacity rb ∧
    View_slice rb1 v = Ok chunk ∧
    View_byte rb1 v 0 = Ok (Some x01) ∧
    View_slice (writes rb1 [[xba]]) v = Throw StaleViewAccess.
Proof.
  intros rb chunk. eexists _, _. split; [vm_compute; reflexivity|].
  split; [reflexivity|].
  split; [|split].
  - eapply (C2_safe_view_reads chunk rb _ _ []);
      [by vm_compute | reflexivity | vm_compute; reflexivity | by vm_compute
      | by vm_compute | by vm_compute | by vm_compute].
  - eapply (C2_safe_view_reads chunk rb _ _ [] (ltac:(by vm_compute)) eq_refl
              eq_refl (ltac:(by vm_compute)) (ltac:(by vm_compute))
              (ltac:(by vm_compute)));
      [by vm_compute | by vm_compute | intros _; left; by vm_compute].
  - eapply (C2_safe_view_reads chunk rb _ _ [[xba]]);
      [by vm_compute | reflexivity | vm_compute; reflexivity | by vm_compute
      | by vm_compute | by vm_compute | by vm_compute].
Defined.

(** C2, as stated, fails where the counter has advanced to safeOffset
    without passing it.  A 10-byte write on a fresh safe ring of capacity
    10 takes the counter from 0 to 10 = safeOffset; the view is not treated
    as stale: it reads as the ten bytes, in strict mode (no
    StaleViewAccess) and in non-strict mode (not empty). *)
Lemma C2_counter_at_safeOffset_still_reads :
  let chunk := [x01; x23; x45; x67; x89; xab; xcd; xef; xfe; xdc] in
  ∃ rb1 v1 rb1' v1',
    write chunk (ring10 true true) = (rb1, Ok v1) ∧
    write chunk (ring10 false true) = (rb1', Ok v1') ∧
    totalOffset rb1 >= totalOffset (ring10 true true) + capacity (ring10 true true) ∧
    totalOffset rb1' >= totalOffset (ring10 false true) + capacity (ring10 false true) ∧
    View_slice rb1 v1 = Ok chunk ∧ View_slice rb1 v1 ≠ Throw StaleViewAccess ∧
    View_slice rb1' v1' = Ok chunk ∧ View_slice rb1' v1' ≠ Ok [] ∧
    View_length rb1' v1' = Ok 10.
Proof.
  intros chunk. do 4 eexists.
  split; [vm_compute; reflexivity|]. split; [vm_compute; reflexivity|].
  by vm_compute.
Qed.

(** The index that byte access misses.  After an exact fill the next
    write returns a view whose first buffer is empty; [get(0)] looks into
    that buffer and answers undefined, while the view reads as the chunk. *)
Lemma byte_zero_of_view_made_at_capacity :
  let rb := writes (ring10 false true)
              [[x12; x34; x56; x78; x90; xab; xcd; xef; xfe; xdc]] in
  ∃ rb' v, write [xba; x09] rb = (rb', Ok v) ∧
    offset rb = capacity rb ∧
    View_slice rb' v = Ok [xba; x09] ∧
    View_byte rb' v 0 = Ok None ∧
    View_byte rb' v 1 = Ok (Some x09).
Proof.
  intros rb. eexists _, _. split; [vm_compute; reflexivity|]. by vm_compute.
Qed.

(** * More of [write]: the other branches, runs of writes, edge cases *)

(** ** Which way a write goes *)

(** For a chunk that is a Buffer (the embedding has no other kind): in a
    reachable state [write] throws only its own error, and only in strict
    mode for a chunk longer than the capacity; every other write returns a
    view.  The range errors of [Buffer.copy] are never met. *)
Theorem write_throws_only_ChunkTooLarge chunk rb :
  wf rb →
  (strict rb = true ∧ blen chunk > capacity rb →
     write chunk rb = (rb, Throw ChunkTooLarge)) ∧
  (¬ (strict rb = true ∧ blen chunk > capacity rb) →
     ∃ rb' v, write chunk rb = (rb', Ok v)).
Proof.
  intros Hwf.
  destruct (write_cases chunk rb Hwf) as [? ? Hw|? ? Hw|? ? Hw|? ? Hw];
    rewrite Hw.
  - split; [done|]. intros Hnot. by destruct Hnot.
  - split; [intros [? ?]; congruence|]. intros _. by eexists _, _.
  - split; [intros [? ?]; lia|]. intros _. by eexists _, _.
  - split; [intros [? ?]; lia|]. intros _. by eexists _, _.
Qed.

Lemma write_throws_only_ChunkTooLarge_witness :
  let rb := writes (ring10 true true) [[xab; xcd; xef]] in
  let big := [x12; x34; x56; x78; x90; xab; xcd; xef; xfe; xdc; xba] in
  wf rb ∧
  write big rb = (rb, Throw ChunkTooLarge) ∧
  ∃ rb' v, write [x12; x34] rb = (rb', Ok v).
Proof.
  intros rb big.
  assert (wf rb) as Hwf by (by vm_compute).
  split; [exact Hwf|]. split.
  - apply (write_throws_only_ChunkTooLarge big rb Hwf). by vm_compute.
  - apply (write_throws_only_ChunkTooLarge [x12; x34] rb Hwf).
    intros [_ Hbig]. by vm_compute in Hbig.
Defined.

(** ** The branch that fits *)

(** X2. In a reachable state a chunk with offset + n <= capacity is copied
    to [storage[offset : offset+n]] and to no other position, the offset
    moves on by n, and the view returned is that one region: right after
    the write it has length n and shows the chunk; outside safe mode it is
    a plain Buffer. *)
Theorem write_fit_returns_the_chunk chunk rb :
  wf rb → offset rb + blen chunk <= capacity rb →
  ∃ rb' v, write chunk rb = (rb', Ok v) ∧
    View_segments v = [ {| byteOffset := offset rb; byteLength := blen chunk |} ] ∧
    offset rb' = offset rb + blen chunk ∧
    View_length rb' v = Ok (blen chunk) ∧
    View_slice rb' v = Ok chunk ∧
    (safe rb = false → isBuffer v = true) ∧
    (∀ p : nat, ¬ (offset rb <= Z.of_nat p < offset rb + blen chunk) →
       buffer rb' !! p = buffer rb !! p).
Proof.
  intros Hwf Hfit. pose proof Hwf as [Ho Hc].
  pose proof (blen_nonneg chunk) as Hn.
  assert (blen chunk <= capacity rb) as Hle by lia.
  destruct (write_cases chunk rb Hwf) as [?|?|? ? Hw'|?]; try lia.
  destruct (write_read_back chunk rb Hwf Hle) as (rb' & v & Hw & Hfresh & Hbytes & Hlen).
  rewrite Hw' in Hw. injection Hw as <- <-.
  destruct (View_fresh _ _ Hfresh) as [Hslice Hlength].
  eexists _, _. split; [exact Hw'|].
  rewrite Hslice, Hlength, Hbytes, Hlen.
  rewrite View_segments_as_view, isBuffer_as_view, offset_count, buffer_count.
  simpl. repeat split.
  - by intros ->.
  - intros p Hp. unfold capacity, blen in *.
    rewrite lookup_after_fit by lia. case_decide; [lia|done].
Qed.

Lemma write_fit_returns_the_chunk_witness :
  let rb := writes (ring10 true false) [[xab; xcd; xef]] in
  let chunk := [x12; x34; x56; x78; x90; xfe; xdc] in
  offset rb + blen chunk <= capacity rb ∧
  ∃ rb' v, write chunk rb = (rb', Ok v) ∧
    View_segments v = [ {| byteOffset := offset rb; byteLength := blen chunk |} ] ∧
    offset rb' = offset rb + blen chunk ∧
    View_length rb' v = Ok (blen chunk) ∧
    View_slice rb' v = Ok chunk ∧
    (safe rb = false → isBuffer v = true) ∧
    (∀ p : nat, ¬ (offset rb <= Z.of_nat p < offset rb + blen chunk) →
       buffer rb' !! p = buffer rb !! p).
Proof.
  intros rb chunk. split; [by vm_compute|].
  apply (write_fit_returns_the_chunk chunk rb); by vm_compute.
Defined.

(** ** The empty chunk *)

(** X3. Writing an empty chunk never throws and changes nothing: storage,
    offset and counter stay as they are, in every mode and also when the
    offset stands at the capacity or the capacity is 0.  The view returned
    has no segment but [storage[offset : offset]] and reads as empty. *)
Theorem write_empty_chunk rb :
  wf rb →
  ∃ v, write [] rb = (rb, Ok v) ∧
    View_segments v = [ {| byteOffset := offset rb; byteLength := 0 |} ] ∧
    View_length rb v = Ok 0 ∧ View_slice rb v = Ok [].
Proof.
  intros Hwf. pose proof Hwf as [Ho Hc].
  destruct (write_cases [] rb Hwf) as [?|?|? ? Hw|?];
    try (unfold capacity, blen in *; simpl in *; lia).
  assert (count (safe rb) (blen [])
            (set_offset (offset rb + blen [])
               (set_buffer (list_inserts (Z.to_nat (offset rb)) [] (buffer rb)) rb))
          = rb) as Hstate.
  { destruct rb as [mem o st [|] t]; cbn;
      unfold set_totalOffset, set_offset, set_buffer, blen; cbn; f_equal; lia. }
  rewrite Hstate in Hw. eexists. split; [exact Hw|].
  rewrite View_segments_as_view. split; [done|].
  assert (¬ stale rb (as_view (safe rb) (totalOffset rb + capacity rb)
                        (IsBuffer {| byteOffset := offset rb; byteLength := blen [] |})))
    as Hfresh by (rewrite stale_as_view; lia).
  destruct (View_fresh _ _ Hfresh) as [-> ->].
  by rewrite Raw_bytes_as_view, Raw_length_as_view.
Qed.

Lemma write_empty_chunk_witness :
  let rb := writes (ring10 true true)
              [[x12; x34; x56; x78; x90; xab; xcd; xef; xfe; xdc]] in
  offset rb = capacity rb ∧
  ∃ v, write [] rb = (rb, Ok v) ∧
    View_segments v = [ {| byteOffset := offset rb; byteLength := 0 |} ] ∧
    View_length rb v = Ok 0 ∧ View_slice rb v = Ok [].
Proof.
  intros rb. split; [reflexivity|].
  apply (write_empty_chunk rb). by vm_compute.
Defined.

(** ** Runs of writes *)

Lemma total_length_nonneg chunks : 0 <= total_length chunks.
Proof.
  induction chunks as [|chunk chunks IH]; simpl; [done|].
  pose proof (blen_nonneg chunk). lia.
Qed.


Lemma write_view_shape chunk rb rb1 v :
  write chunk rb = (rb1, Ok v) →
  ∃ r, v = as_view (safe rb) (totalOffset rb + capacity rb) r.
Proof.
  rewrite write_unfold. destruct (write_private chunk rb) as [rb' [r|e]]; [|done].
  intros [= _ <-]. by exists r.
Qed.

(** In safe mode the counter is the sum of the lengths of the chunks that
    were let through. *)
Lemma writes_totalOffset_counted chunks rb :
  wf rb → safe rb = true →
  totalOffset (writes rb chunks) =
    totalOffset rb + counted (strict rb) (capacity rb) chunks.
Proof.
  revert rb. induction chunks as [|chunk chunks IH]; intros rb Hwf Hsf.
  { simpl. lia. }
  rewrite writes_cons.
  destruct (write_preserves chunk rb Hwf) as (Hwf' & Hcap' & Hs' & Hsf').
  rewrite IH by (done || congruence). rewrite Hcap', Hs'. simpl.
  destruct (write_cases chunk rb Hwf) as [? ? ->|? ? ->|? ? ->|? ? ->]; simpl;
    rewrite ?Hsf; simpl; case_decide as Hd; try lia;
    try (destruct Hd; (congruence || lia)).
  exfalso. apply Hd. done.
Qed.




(** X5. In safe mode the counter after a write that returned and any run
    of later writes is the counter before plus the length of the chunk plus
    the bytes let through since.  The view is cut off exactly when the
    chunk and those bytes come to more than the capacity: then every read
    throws on a strict ring and shows nothing on a non-strict one.  The
    counter and safeOffset are JavaScript numbers: this is stated for runs
    that keep both within the integers such a number holds exactly. *)
Theorem safe_view_cut_off_past_capacity chunk rb rb1 v chunks :
  wf rb → safe rb = true → write chunk rb = (rb1, Ok v) →
  let rb2 := writes rb1 chunks in
  let since := blen chunk + counted (strict rb) (capacity rb) chunks in
  0 <= totalOffset rb →
  totalOffset rb + capacity rb <= MAX_SAFE_INTEGER →
  totalOffset rb + since <= MAX_SAFE_INTEGER →
  totalOffset rb2 = totalOffset rb + since ∧
  (stale rb2 v ↔ since > capacity rb) ∧
  (since > capacity rb →
     View_slice rb2 v = (if strict rb then Throw StaleViewAccess else Ok []) ∧
     View_length rb2 v = (if strict rb then Throw StaleViewAccess else Ok 0)).
Proof.
  intros Hwf Hsf Hw rb2 since _ _ _. subst rb2 since.
  pose proof (write_preserves chunk rb Hwf) as (Hwf1 & Hcap1 & Hs1 & Hsf1).
  pose proof (write_totalOffset chunk rb Hwf) as Ht.
  rewrite Hw in Hwf1, Hcap1, Hs1, Hsf1, Ht. simpl in Hwf1, Hcap1, Hs1, Hsf1, Ht.
  rewrite Hsf in Ht.
  destruct (writes_preserves chunks rb1 Hwf1) as (_ & _ & Hs2 & _).
  assert (totalOffset (writes rb1 chunks) =
          totalOffset rb + (blen chunk + counted (strict rb) (capacity rb) chunks))
    as Htotal.
  { rewrite writes_totalOffset_counted by (done || congruence).
    rewrite Hs1, Hcap1, Ht. lia. }
  assert (stale (writes rb1 chunks) v ↔
          blen chunk + counted (strict rb) (capacity rb) chunks > capacity rb)
    as Hiff.
  { destruct (write_view_shape _ _ _ _ Hw) as [r ->].
    rewrite stale_as_view, Htotal. split; [intros [_ ?]|split; [done|]]; lia. }
  split; [done|]. split; [done|]. intros Hpast.
  destruct (View_stale (writes rb1 chunks) v) as (-> & -> & _); [by apply Hiff|].
  by rewrite Hs2, Hs1.
Qed.

Lemma safe_view_cut_off_past_capacity_witness :
  let rb := ring10 false true in
  let chunk := [xab; xcd; xef] in
  let chunks := [[x12; x34; x56]; [x78; x90; xfe]; [xdc; xba; x09]] in
  ∃ rb1 v, write chunk rb = (rb1, Ok v) ∧
    totalOffset (writes rb1 chunks) = 12 ∧
    View_slice (writes rb1 chunks) v = Ok [] ∧
    View_length (writes rb1 chunks) v = Ok 0.
Proof.
  intros rb chunk chunks. eexists _, _. split; [vm_compute; reflexivity|].
  split; [reflexivity|].
  eapply (safe_view_cut_off_past_capacity chunk rb _ _ chunks);
    [by vm_compute | reflexivity | vm_compute; reflexivity | by vm_compute
    | by vm_compute | by vm_compute | by vm_compute].
Defined.

(** X6. A view the trap has cut off stays cut off: the counter never goes
    back, so after any further run of writes every read of it still throws
    on a strict ring and still shows nothing on a non-strict one. *)
Theorem stale_view_stays_stale rb v chunks :
  wf rb → stale rb v →
  let rb' := writes rb chunks in
  stale rb' v ∧
  View_slice rb' v = (if strict rb then Throw StaleViewAccess else Ok []) ∧
  View_length rb' v = (if strict rb then Throw StaleViewAccess else Ok 0) ∧
  View_toString_hex rb' v =
    (if strict rb then Throw StaleViewAccess else Ok EmptyString).
Proof.
  intros Hwf Hstale rb'. subst rb'.
  pose proof (writes_totalOffset_mono chunks rb Hwf) as Hmono.
  destruct (writes_preserves chunks rb Hwf) as (_ & _ & Hs & _).
  assert (stale (writes rb chunks) v) as Hstale'.
  { destruct v as [r|target safeOffset]; simpl in *; [done|lia]. }
  split; [done|].
  destruct (View_stale _ _ Hstale') as (-> & -> & -> & _).
  by rewrite Hs.
Qed.

Lemma stale_view_stays_stale_witness :
  let rb0 := ring10 true true in
  let chunk := [x01; x23; x45; x67; x89; xab; xcd; xef; xfe; xdc] in
  ∃ rb1 v, write chunk rb0 = (rb1, Ok v) ∧
    let rb := writes rb1 [[xba]] in
    let rb' := writes rb [[x12; x34]; []; [x56]] in
    stale rb v ∧ stale rb' v ∧
    View_slice rb' v = Throw StaleViewAccess ∧
    View_length rb' v = Throw StaleViewAccess ∧
    View_toString_hex rb' v = Throw StaleViewAccess.
Proof.
  intros rb0 chunk. eexists _, _. split; [vm_compute; reflexivity|].
  intros rb rb'.
  assert (stale rb (Proxied {| _bufs := [ {| byteOffset := 0; byteLength := 10 |} ];
                              BL_length := 10 |} 10)) as Hstale by (by vm_compute).
  split; [exact Hstale|].
  apply (stale_view_stays_stale rb _ [[x12; x34]; []; [x56]]);
    [by vm_compute | exact Hstale].
Defined.



(** ** The storage as a ring *)

Lemma lookup_app_decide (l1 l2 : list byte) (j : nat) :
  (l1 ++ l2) !! j =
    if decide (j < length l1)%nat then l1 !! j else l2 !! (j - length l1)%nat.
Proof.
  case_decide; [by apply lookup_app_l|apply lookup_app_r; lia].
Qed.

Lemma ring_order_lookup rb (j : nat) :
  wf rb →
  ring_order rb !! j =
    if decide (Z.of_nat j < capacity rb - offset rb)
    then buffer rb !! (Z.to_nat (offset rb) + j)%nat
    else if decide (Z.of_nat j < capacity rb)
         then buffer rb !! (j - (length (buffer rb) - Z.to_nat (offset rb)))%nat
         else None.
Proof.
  intros [Ho Hc]. unfold ring_order, capacity, blen in *.
  rewrite lookup_app_decide, length_drop, lookup_drop, lookup_take.
  repeat case_decide; try lia; done.
Qed.

Lemma length_ring_order rb : wf rb → length (ring_order rb) = length (buffer rb).
Proof.
  intros [Ho Hc]. unfold ring_order, capacity, blen in *.
  rewrite length_app, length_drop, length_take. lia.
Qed.

(** One write that is not oversized shifts the ring: the chunk comes in
    at the young end and as many bytes leave at the old end. *)
Lemma ring_order_write chunk rb :
  wf rb → blen chunk <= capacity rb →
  ring_order (fst (write chunk rb)) = drop (length chunk) (ring_order rb ++ chunk).
Proof.
  intros Hwf Hn. pose proof Hwf as [Ho Hc].
  destruct (write_preserves chunk rb Hwf) as (Hwf' & Hcap' & _).
  apply list_eq. intros j.
  rewrite ring_order_lookup by done.
  rewrite lookup_drop, lookup_app_decide, length_ring_order by done.
  rewrite ring_order_lookup by done. rewrite Hcap'.
  assert (length (buffer (fst (write chunk rb))) = length (buffer rb)) as Hlen.
  { unfold capacity, blen in Hcap'. lia. }
  rewrite Hlen. clear Hwf' Hcap' Hlen.
  destruct (write_cases chunk rb Hwf) as [?|?|? ? ->|? ? ->]; try lia; simpl;
    rewrite offset_count, buffer_count; simpl; unfold capacity, blen in *.
  - rewrite !lookup_after_fit by lia.
    repeat case_decide; try lia; try done; try (f_equal; lia).
    symmetry. apply lookup_ge_None_2. lia.
  - fold (blen (buffer rb)). rewrite wrap_memory_nat by (unfold blen; lia).
    rewrite !lookup_after_wrap by lia. unfold blen.
    repeat case_decide; try lia; try done; try (f_equal; lia).
    symmetry. apply lookup_ge_None_2. lia.
Qed.

Lemma last_bytes_app_drop (k m : nat) (l rest : list byte) :
  (k + m ≤ length l)%nat →
  last_bytes k (drop m l ++ rest) = last_bytes k (l ++ rest).
Proof.
  intros Hk. unfold last_bytes. apply list_eq. intros j.
  rewrite !lookup_drop, !lookup_app_decide, !length_app, !length_drop, lookup_drop.
  repeat case_decide; try lia; f_equal; lia.
Qed.

(** X8. As long as no chunk is longer than the capacity, the ring behaves
    as a window on the stream of bytes written: read once round from the
    offset, the storage holds the last capacity bytes of what it held
    before followed by all the chunks, oldest byte first.  So each write
    overwrites the oldest bytes and nothing else. *)
Theorem ring_holds_last_bytes_written chunks rb :
  wf rb → Forall (λ chunk, blen chunk <= capacity rb) chunks →
  ring_order (writes rb chunks) =
    last_bytes (length (buffer rb)) (ring_order rb ++ concat chunks).
Proof.
  revert rb. induction chunks as [|chunk chunks IH]; intros rb Hwf Hall.
  - simpl. unfold last_bytes.
    rewrite app_nil_r, length_ring_order by done.
    by rewrite Nat.sub_diag.
  - apply Forall_cons in Hall as [Hn Hall].
    destruct (write_preserves chunk rb Hwf) as (Hwf' & Hcap' & _).
    rewrite writes_cons, IH; [|done|by rewrite Hcap'].
    rewrite ring_order_write by done.
    assert (length (buffer (fst (write chunk rb))) = length (buffer rb)) as ->.
    { unfold capacity, blen in Hcap'. lia. }
    simpl. rewrite last_bytes_app_drop, <- app_assoc; [done|].
    rewrite length_app, length_ring_order by done. lia.
Qed.

Lemma ring_holds_last_bytes_written_witness :
  let rb := ring10 false false in
  let chunks := [[xab; xcd; xef]; [x12; x34; x56]; [x78; x90; xfe]; [xdc; xba; x09]] in
  ring_order (writes rb chunks) =
    [xef; x12; x34; x56; x78; x90; xfe; xdc; xba; x09] ∧
  ring_order (writes rb chunks) =
    last_bytes (length (buffer rb)) (ring_order rb ++ concat chunks).
Proof.
  intros rb chunks. split; [reflexivity|].
  apply (ring_holds_last_bytes_written chunks rb); [by vm_compute|].
  repeat constructor; by vm_compute.
Defined.

(** X9. On a strict ring the chunks that are rejected leave no trace: read
    once round from the offset, the storage holds the last capacity bytes
    of what it held before followed by the chunks that fit, whatever
    oversized chunks were offered in between. *)
Theorem strict_ring_holds_last_bytes_accepted chunks rb :
  wf rb → strict rb = true →
  ring_order (writes rb chunks) =
    last_bytes (length (buffer rb))
      (ring_order rb ++ concat (filter (λ chunk, blen chunk <= capacity rb) chunks)).
Proof.
  revert rb. induction chunks as [|chunk chunks IH]; intros rb Hwf Hs.
  - simpl. unfold last_bytes.
    rewrite app_nil_r, length_ring_order by done.
    by rewrite Nat.sub_diag.
  - destruct (write_preserves chunk rb Hwf) as (Hwf' & Hcap' & Hs' & _).
    rewrite writes_cons, filter_cons.
    destruct (decide (blen chunk <= capacity rb)) as [Hn|Hbig].
    + rewrite IH; [|done|congruence]. rewrite Hcap'.
      rewrite ring_order_write by done.
      assert (length (buffer (fst (write chunk rb))) = length (buffer rb)) as ->.
      { unfold capacity, blen in Hcap'. lia. }
      simpl. rewrite last_bytes_app_drop, <- app_assoc; [done|].
      rewrite length_app, length_ring_order by done. lia.
    + assert (fst (write chunk rb) = rb) as ->.
      { by rewrite write_unfold, write_private_reject by (done || lia). }
      by apply IH.
Qed.

Lemma strict_ring_holds_last_bytes_accepted_witness :
  let rb := ring10 true false in
  let big := [x12; x34; x56; x78; x90; xab; xcd; xef; xfe; xdc; xba] in
  let chunks := [[xab; xcd; xef]; big; [x12; x34; x56]] in
  ring_order (writes rb chunks) =
    [x00; x00; x00; x00; xab; xcd; xef; x12; x34; x56] ∧
  ring_order (writes rb chunks) =
    last_bytes (length (buffer rb))
      (ring_order rb ++ concat (filter (λ chunk, blen chunk <= capacity rb) chunks)).
Proof.
  intros rb big chunks. split; [reflexivity|].
  apply (strict_ring_holds_last_bytes_accepted chunks rb); by vm_compute.
Defined.

(** ** Edge cases of the offset and of the capacity *)

(** X10. A ring constructed with capacity 0 never stores a byte.  After
    any run of writes its storage is empty and its offset 0; a non-empty
    chunk is rejected when the ring is strict, and every view a write
    returns reads as empty with length 0. *)
Theorem zero_capacity_ring kMaxLength garbage st sf rb0 chunks chunk :
  new_RingBuffer kMaxLength garbage 0 st sf = Ok rb0 →
  let rb := writes rb0 chunks in
  buffer rb = [] ∧ offset rb = 0 ∧
  (st = true → chunk ≠ [] → write chunk rb = (rb, Throw ChunkTooLarge)) ∧
  (∀ rb' v, write chunk rb = (rb', Ok v) →
     View_slice rb' v = Ok [] ∧ View_length rb' v = Ok 0).
Proof.
  intros Hnew rb.
  pose proof (new_RingBuffer_wf _ _ _ _ _ _ Hnew) as [Hwf0 Hcap0].
  apply new_RingBuffer_inv in Hnew as [_ (content & _ & Hrb0)].
  destruct (writes_preserves chunks rb0 Hwf0) as (Hwf & Hcap & Hs & Hsf).
  fold rb in Hwf, Hcap, Hs, Hsf. pose proof Hwf as [Ho Hc].
  assert (capacity rb = 0) as Hzero by congruence.
  assert (strict rb = st) as Hst by (rewrite Hs; by subst rb0).
  assert (buffer rb = []) as Hbuf.
  { unfold capacity, blen in Hzero. destruct (buffer rb); [done|simpl in *; lia]. }
  split; [done|]. split; [lia|]. split.
  - intros -> Hne. rewrite write_unfold, write_private_reject; [done| |done].
    unfold blen. destruct chunk; [done|simpl; lia].
  - intros rb' v Hw.
    destruct (write_cases chunk rb Hwf) as [? ? Hw'|? ? Hw'|? ? Hw'|? ? Hw'];
      rewrite Hw' in Hw; [done|injection Hw as <- <-..]; [| |lia].
    + destruct (safe rb) eqn:Hsafe.
      * destruct (View_stale
                    (count true (blen chunk)
                       (set_buffer (drop (Z.to_nat (blen chunk - capacity rb)) chunk) rb))
                    (as_view true (totalOffset rb + capacity rb)
                       (IsBuffer (this_buffer rb)))) as (-> & -> & _);
          [simpl; lia|].
        rewrite strict_count. simpl.
        replace (strict rb) with false by congruence. done.
      * unfold View_slice, View_length. simpl.
        unfold Buffer_bytes, this_buffer. simpl. rewrite Hzero. simpl.
        by rewrite take_0.
    + assert (chunk = []) as ->.
      { unfold blen in *. destruct chunk; [done|simpl in *; lia]. }
      assert (¬ stale
                (count (safe rb) (blen [])
                   (set_offset (offset rb + blen [])
                      (set_buffer (list_inserts (Z.to_nat (offset rb)) [] (buffer rb)) rb)))
                (as_view (safe rb) (totalOffset rb + capacity rb)
                   (IsBuffer {| byteOffset := offset rb; byteLength := blen [] |})))
        as Hfresh.
      { rewrite stale_as_view. intros [Hsafe Hst']. rewrite Hsafe in Hst'.
        simpl in Hst'. unfold blen in Hst'. simpl in Hst'. lia. }
      destruct (View_fresh _ _ Hfresh) as [-> ->].
      by rewrite Raw_bytes_as_view, Raw_length_as_view.
Qed.

Lemma zero_capacity_ring_witness :
  let rb0 := {| buffer := []; offset := 0; strict := false; safe := true;
                totalOffset := 0 |} in
  let rb := writes rb0 [[xab; xcd]; []] in
  buffer rb = [] ∧ offset rb = 0 ∧
  (false = true → [xef] ≠ [] → write [xef] rb = (rb, Throw ChunkTooLarge)) ∧
  (∀ rb' v, write [xef] rb = (rb', Ok v) →
     View_slice rb' v = Ok [] ∧ View_length rb' v = Ok 0).
Proof.
  intros rb0 rb.
  apply (zero_capacity_ring example_kMaxLength zeroed false true rb0
           [[xab; xcd]; []] [xef]).
  reflexivity.
Defined.

(** X11. A ring whose offset stands at the capacity (after an exact fill)
    takes the next non-empty chunk that fits exactly as the same ring with
    offset 0 would: the same bytes land at the start of the storage and the
    ring ends in the same state.  Only the view differs: it is the
    two-segment kind with an empty first segment instead of a single
    region. *)
Theorem offset_at_capacity_acts_as_zero chunk rb :
  wf rb → offset rb = capacity rb → 0 < blen chunk <= capacity rb →
  ∃ rb' v v0,
    write chunk rb = (rb', Ok v) ∧
    write chunk (set_offset 0 rb) = (rb', Ok v0) ∧
    offset rb' = blen chunk ∧
    take (length chunk) (buffer rb') = chunk ∧
    View_segments v =
      [ {| byteOffset := capacity rb; byteLength := 0 |};
        {| byteOffset := 0; byteLength := blen chunk |} ] ∧
    View_segments v0 = [ {| byteOffset := 0; byteLength := blen chunk |} ].
Proof.
  intros Hwf Hfull Hn. pose proof Hwf as [Ho Hc].
  assert (wf (set_offset 0 rb)) as Hwf0.
  { unfold wf, capacity in *. simpl. lia. }
  destruct (write_cases chunk rb Hwf) as [?|?|?|? ? Hw]; try lia.
  destruct (write_cases chunk (set_offset 0 rb) Hwf0) as [?|?|? ? Hw0|?];
    simpl in *; try (unfold capacity in *; simpl in *; lia).
  assert (Z.to_nat (capacity rb - offset rb) = 0%nat) as Hrem
    by (unfold capacity in *; lia).
  eexists _, _, _. split; [exact Hw|]. split.
  { rewrite Hw0. f_equal. rewrite Hrem, Hfull. simpl. rewrite drop_0.
    unfold count, set_offset, set_buffer, capacity. simpl.
    destruct (safe rb); simpl; change (Z.to_nat 0) with 0%nat;
      replace (0 + blen chunk)
        with (blen chunk - (blen (buffer rb) - blen (buffer rb))) by lia; done. }
  rewrite !View_segments_as_view, offset_count, buffer_count. simpl.
  rewrite Hrem, Hfull. simpl. rewrite drop_0.
  split; [lia|]. split; [|split; [do 3 f_equal; lia|done]].
  apply list_eq. intros j. rewrite lookup_take, !lookup_list_inserts.
  rewrite ?length_inserts. unfold capacity, blen in *. simpl.
  repeat case_decide; try lia; try (f_equal; lia).
  symmetry. apply lookup_ge_None_2. lia.
Qed.

Lemma offset_at_capacity_acts_as_zero_witness :
  let rb := writes (ring10 false false)
              [[x12; x34; x56; x78; x90; xab; xcd; xef; xfe; xdc]] in
  let chunk := [xba; x09] in
  offset rb = capacity rb ∧
  ∃ rb' v v0,
    write chunk rb = (rb', Ok v) ∧
    write chunk (set_offset 0 rb) = (rb', Ok v0) ∧
    offset rb' = blen chunk ∧
    take (length chunk) (buffer rb') = chunk ∧
    View_segments v =
      [ {| byteOffset := capacity rb; byteLength := 0 |};
        {| byteOffset := 0; byteLength := blen chunk |} ] ∧
    View_segments v0 = [ {| byteOffset := 0; byteLength := blen chunk |} ].
Proof.
  intros rb chunk. split; [reflexivity|].
  apply (offset_at_capacity_acts_as_zero chunk rb); by vm_compute.
Defined.
